(** * An online Aho-Corasick automaton: model of [src/search/AhoCorasick.js]

    The class keeps a trie of the inserted words in a table of nodes indexed
    by integers, memoizes failure links ([suffix]) and node words ([word])
    lazily, and offers [add], [delete] and [query].  The JavaScript object is
    modelled as a record that is threaded through a small state-and-exception
    monad; recursion that is not structural ([_getSuffix], [_transition],
    [_getWord], the [while] loop of [_getWords], [_clearSuffixes]) takes a
    fuel argument. A string is a Rocq [string], one [ascii] standing for one
    code unit as [charAt] returns it; node numbers are integers. *)

From stdpp Require Import gmap strings list fin_maps.
From Stdlib Require Import ZArith Lia Ascii String Sorted.

Local Open Scope Z_scope.

(** ** Data model *)

(** [type Node]: [children] is a JS object keyed by one-character strings,
    [suffixOf] an object used as a set of node numbers, [suffix] and [word]
    are nullable. *)
Record Node := mkNode {
  char : string;
  children : gmap string Z;
  end_ : bool;
  parent : Z;
  suffixOf : gset Z;
  suffix : option Z;
  word : option string;
}.

Definition ROOT : Z := 0.
Definition EMPTY : Z := -1.

Record AhoCorasick := mkAC {
  _dict : gset string;
  _ghosts : gset string;
  _next : Z;
  _nodes : gmap Z Node;
}.

(** Field assignments [n[k].f = v] on a node object. *)
Definition set_end (b : bool) (nd : Node) : Node :=
  mkNode (char nd) (children nd) b (parent nd) (suffixOf nd) (suffix nd) (word nd).
Definition set_suffix (v : option Z) (nd : Node) : Node :=
  mkNode (char nd) (children nd) (end_ nd) (parent nd) (suffixOf nd) v (word nd).
Definition set_word (v : option string) (nd : Node) : Node :=
  mkNode (char nd) (children nd) (end_ nd) (parent nd) (suffixOf nd) (suffix nd) v.
Definition set_child (c : string) (k : Z) (nd : Node) : Node :=
  mkNode (char nd) (<[c:=k]> (children nd)) (end_ nd) (parent nd) (suffixOf nd)
         (suffix nd) (word nd).
Definition del_suffixOf (k : Z) (nd : Node) : Node :=
  mkNode (char nd) (children nd) (end_ nd) (parent nd) (suffixOf nd ∖ {[k]})
         (suffix nd) (word nd).

Definition with_nodes (f : gmap Z Node → gmap Z Node) (a : AhoCorasick) : AhoCorasick :=
  mkAC (_dict a) (_ghosts a) (_next a) (f (_nodes a)).

(** ** Exceptions and the state monad *)

Inductive exn :=
  | AssertionError (msg : string)
  | TypeError.

(** A call either returns a value, throws (the object keeps whatever was
    mutated before the throw), or the model runs out of fuel. *)
Inductive outcome (A : Type) :=
  | Return (v : A) (a : AhoCorasick)
  | Throw (e : exn) (a : AhoCorasick)
  | OutOfFuel.
Arguments Return {A} v a.
Arguments Throw {A} e a.
Arguments OutOfFuel {A}.

Definition M (A : Type) : Type := AhoCorasick → outcome A.

Definition ret {A} (v : A) : M A := λ a, Return v a.
Definition throw {A} (e : exn) : M A := λ a, Throw e a.
Definition diverge {A} : M A := λ _, OutOfFuel.
Definition bind {A B} (m : M A) (f : A → M B) : M B :=
  λ a, match m a with
       | Return v a' => f v a'
       | Throw e a' => Throw e a'
       | OutOfFuel => OutOfFuel
       end.

Notation "x <- m ;; k" := (bind m (λ x, k))
  (at level 100, m at next level, right associativity, only parsing).
Notation "m ;;; k" := (bind m (λ _, k))
  (at level 100, right associativity, only parsing).

(** [n[k]] followed by a property access: a [TypeError] when [n[k]] is
    [undefined]. *)
Definition node_at (k : Z) : M Node :=
  λ a, match _nodes a !! k with
       | Some nd => Return nd a
       | None => Throw TypeError a
       end.

(** [n[k].f = v]: mutates the object stored at [k]. *)
Definition update_node (k : Z) (f : Node → Node) : M unit :=
  λ a, match _nodes a !! k with
       | Some nd => Return tt (with_nodes (<[k:=f nd]>) a)
       | None => Throw TypeError a
       end.

(** [invariant(cond, msg)] of the [assert] module. *)
Definition invariant (cond : bool) (msg : string) : M unit :=
  if cond then ret tt else throw (AssertionError msg).

(** JS truthiness of [children[char]]: [undefined] and [0] are falsy. *)
Definition truthy (o : option Z) : option Z :=
  match o with
  | Some k => if decide (k = 0) then None else Some k
  | None => None
  end.

(** [word.charAt(i)] is the one-character string at position [i]. *)
Definition char1 (c : ascii) : string := String c EmptyString.

(** ** The constructor *)

Definition root_node : Node :=
  mkNode "" ∅ false EMPTY ∅ (Some ROOT) (Some "").

Definition new_AhoCorasick : AhoCorasick :=
  mkAC ∅ ∅ (ROOT + 1) {[ ROOT := root_node ]}.

(** ** [_clearSuffixes] *)

(** [Object.keys] yields the keys as strings. At the call in [add], [node] is
    a number, so the guard [clear === node] compares a string with a number
    and is false; in the recursive calls [node] is itself such a key
    ([is_key]) and the guard compares the two keys. The keys are those
    present when the call starts. *)
Fixpoint _clearSuffixes (fuel : nat) (node : Z) (is_key : bool) : M unit :=
  match fuel with
  | O => diverge
  | S fuel' =>
      nd <- node_at node ;;
      let toClear := elements (suffixOf nd) in
      foldr (λ clear rest,
               (if is_key && bool_decide (clear = node) then ret tt
                else
                  update_node node (del_suffixOf clear) ;;;
                  update_node clear (set_suffix None) ;;;
                  _clearSuffixes fuel' clear true) ;;;
               rest)
            (ret tt) toClear
  end.

(** ** [_getSuffix] and [_transition] *)

Fixpoint _getSuffix (fuel : nat) (node : Z) : M Z :=
  match fuel with
  | O => diverge
  | S fuel' =>
      nd <- node_at node ;;
      match suffix nd with
      | Some sfx => ret sfx
      | None =>
          sfx <- (nd1 <- node_at node ;;
                 if decide (parent nd1 = ROOT) then ret ROOT
                 else
                   nd2 <- node_at node ;;
                   ps <- _getSuffix fuel' (parent nd2) ;;
                   nd3 <- node_at node ;;
                   _transition fuel' ps (char nd3)) ;;
          update_node node (set_suffix (Some sfx)) ;;;
          ret sfx
      end
  end
with _transition (fuel : nat) (node : Z) (char : string) : M Z :=
  match fuel with
  | O => diverge
  | S fuel' =>
      nd <- node_at node ;;
      match children nd !! char with
      | Some child => ret child
      | None =>
          if decide (node = ROOT) then ret ROOT
          else
            sfx <- _getSuffix fuel' node ;;
            _transition fuel' sfx char
      end
  end.

(** ** [_getWord] and [_getWords] *)

Fixpoint _getWord (fuel : nat) (node : Z) : M string :=
  match fuel with
  | O => diverge
  | S fuel' =>
      nd <- node_at node ;;
      match word nd with
      | Some w => ret w
      | None =>
          nd1 <- node_at node ;;
          pw <- _getWord fuel' (parent nd1) ;;
          nd2 <- node_at node ;;
          let w := pw +:+ char nd2 in
          update_node node (set_word (Some w)) ;;;
          ret w
      end
  end.

(** The [while (curr !== ROOT)] loop of [_getWords]; [result] is the array
    being filled and [steps] bounds the number of iterations. *)
Fixpoint _getWords_loop (fuel steps : nat) (curr : Z) (result : list string)
  : M (list string) :=
  if decide (curr = ROOT) then ret result
  else
    match steps with
    | O => diverge
    | S steps' =>
        curr' <- _getSuffix fuel curr ;;
        nd <- node_at curr' ;;
        (if end_ nd then
           w <- _getWord fuel curr' ;;
           _getWords_loop fuel steps' curr' (result ++ [w])
         else _getWords_loop fuel steps' curr' result)
    end.

Definition _getWords (fuel : nat) (node : Z) : M (list string) :=
  nd <- node_at node ;;
  result <- (if end_ nd then w <- _getWord fuel node ;; ret [w] else ret []) ;;
  _getWords_loop fuel fuel node result.

(** ** [query] *)

(** The [for] loop of [query] over the characters of the haystack that are
    still to be read. *)
Fixpoint query_loop (fuel : nat) (haystack : string) (curr : Z) (results : gset string)
  : M (gset string) :=
  match haystack with
  | EmptyString => ret results
  | String c rest =>
      curr' <- _transition fuel curr (char1 c) ;;
      nd <- node_at curr' ;;
      (if end_ nd then
         words <- _getWords fuel curr' ;;
         query_loop fuel rest curr' (results ∪ list_to_set words)
       else query_loop fuel rest curr' results)
  end.

Definition query (fuel : nat) (haystack : string) : M (gset string) :=
  query_loop fuel haystack ROOT ∅.

(** ** [add] *)

Definition new_node (c : string) (last : bool) (curr : Z) : Node :=
  mkNode c ∅ last curr ∅ None None.

Definition is_empty (s : string) : bool :=
  match s with EmptyString => true | _ => false end.

(** The [for] loop of [add] over the characters still to be inserted;
    [i === word.length - 1] holds exactly when nothing follows the character
    at hand. *)
Fixpoint add_loop (fuel : nat) (w : string) (curr : Z) : M unit :=
  match w with
  | EmptyString => ret tt
  | String c rest =>
      let char := char1 c in
      let last := is_empty rest in
      nd <- node_at curr ;;
      match truthy (children nd !! char) with
      | Some child =>
          (if last then update_node child (set_end true) else ret tt) ;;;
          add_loop fuel rest child
      | None =>
          let newNode := new_node char last curr in
          _clearSuffixes fuel curr false ;;;
          (λ a,
             let next := _next a + 1 in
             (update_node curr (set_child char next) ;;;
              add_loop fuel rest next)
               (mkAC (_dict a) (_ghosts a) next (<[next:=newNode]> (_nodes a))))
      end
  end.

Definition add (fuel : nat) (w : string) : M unit :=
  invariant (negb (is_empty w)) "Cannot add empty strings to the structure." ;;;
  (λ a,
     if decide (w ∈ _dict a) then Return tt a
     else add_loop fuel w ROOT
            (mkAC ({[w]} ∪ _dict a) (_ghosts a ∖ {[w]}) (_next a) (_nodes a))).

(** ** [delete] *)

Fixpoint delete_loop (w : string) (curr : Z) : M Z :=
  match w with
  | EmptyString => ret curr
  | String c rest =>
      let char := char1 c in
      nd <- node_at curr ;;
      invariant (bool_decide (is_Some (truthy (children nd !! char))))
                "Unexpected missing child while deleting a node" ;;;
      nd' <- node_at curr ;;
      match children nd' !! char with
      | Some child => delete_loop rest child
      | None => throw TypeError
      end
  end.

Definition delete (w : string) : M unit :=
  λ a,
    if decide (w ∈ _dict a) then
      (curr <- delete_loop w ROOT ;;
       update_node curr (set_end false))
        (mkAC (_dict a ∖ {[w]}) ({[w]} ∪ _ghosts a) (_next a) (_nodes a))
    else Return tt a.

(** * Specification vocabulary *)

(** ** Suffixes and substrings *)

Definition is_suffix (u w : string) : Prop := ∃ p, w = p +:+ u.
Definition proper_suffix (u w : string) : Prop := ∃ p, p ≠ "" ∧ w = p +:+ u.
Definition is_substring (u h : string) : Prop := ∃ p q, h = p +:+ u +:+ q.

(** ** Paths in the trie *)

(** Follows the child edges labelled by the characters of [w] from node [k];
    this is the walk of the loop in [delete], without its assertion. *)
Fixpoint walk (n : gmap Z Node) (w : string) (k : Z) : option Z :=
  match w with
  | EmptyString => Some k
  | String c rest =>
      match n !! k with
      | Some nd =>
          match children nd !! char1 c with
          | Some k' => walk n rest k'
          | None => None
          end
      | None => None
      end
  end.

(** Node [k] is the end of the path that spells [w] from the root. *)
Definition spells (n : gmap Z Node) (k : Z) (w : string) : Prop :=
  walk n w ROOT = Some k.

(** Some node with the [end] flag spells [u]. *)
Definition terminal (n : gmap Z Node) (u : string) : Prop :=
  ∃ k nd, spells n k u ∧ n !! k = Some nd ∧ end_ nd = true.

(** ** What [_getSuffix] and [_transition] compute

    The value of a call as a relation on the node table alone: memoized
    links are read, missing ones are computed, nothing is written. *)
Inductive call :=
  | GetSuffix (node : Z)
  | Transition (node : Z) (c : string).

Inductive eval (n : gmap Z Node) : call → Z → Prop :=
  | eval_memo k nd v :
      n !! k = Some nd → suffix nd = Some v → eval n (GetSuffix k) v
  | eval_top k nd :
      n !! k = Some nd → suffix nd = None → parent nd = ROOT →
      eval n (GetSuffix k) ROOT
  | eval_down k nd ps v :
      n !! k = Some nd → suffix nd = None → parent nd ≠ ROOT →
      eval n (GetSuffix (parent nd)) ps →
      eval n (Transition ps (char nd)) v →
      eval n (GetSuffix k) v
  | eval_goto k nd c v :
      n !! k = Some nd → children nd !! c = Some v → eval n (Transition k c) v
  | eval_stay nd c :
      n !! ROOT = Some nd → children nd !! c = None →
      eval n (Transition ROOT c) ROOT
  | eval_fail k nd c f v :
      n !! k = Some nd → children nd !! c = None → k ≠ ROOT →
      eval n (GetSuffix k) f → eval n (Transition f c) v →
      eval n (Transition k c) v.

(** What a call yields lies on the trie and is a suffix of what was read:
    a failure link spells a proper suffix of its node's word, a transition
    a suffix of the word extended by the character. *)
Definition good (n : gmap Z Node) (q : call) (v : Z) : Prop :=
  match q with
  | GetSuffix k =>
      ∀ w, spells n k w →
           (k = ROOT ∧ v = ROOT) ∨ (k ≠ ROOT ∧ ∃ u, spells n v u ∧ proper_suffix u w)
  | Transition k c =>
      ∀ w x, c = char1 x → spells n k w →
             ∃ u, spells n v u ∧ is_suffix u (w +:+ c)
  end.

(** ** The representation invariant *)

Record trie_wf (next : Z) (n : gmap Z Node) : Prop := {
  wf_root : ∃ r, n !! ROOT = Some r ∧ suffix r = Some ROOT ∧ word r = Some ""
                 ∧ end_ r = false;
  wf_dom : ∀ k nd, n !! k = Some nd → 0 ≤ k ≤ next;
  wf_edge : ∀ p np c k, n !! p = Some np → children np !! c = Some k →
            p < k ∧ ∃ nk, n !! k = Some nk ∧ parent nk = p ∧ char nk = c;
  wf_suffixOf : ∀ k nd, n !! k = Some nd → suffixOf nd = ∅;
  wf_spelled : ∀ k nd, n !! k = Some nd → ∃ w, spells n k w;
}.

(** Memoized fields: a cached failure link points to the node of some proper
    suffix of the node's word (not necessarily the longest one); a cached
    word is the word the node spells. *)
Record cache_ok (n : gmap Z Node) : Prop := {
  cache_suffix : ∀ k nd f, n !! k = Some nd → suffix nd = Some f → k ≠ ROOT →
                 ∃ w wf, spells n k w ∧ spells n f wf ∧ proper_suffix wf w;
  cache_word : ∀ k nd w, n !! k = Some nd → word nd = Some w → spells n k w;
}.

Record dict_ok (a : AhoCorasick) : Prop := {
  dict_end : ∀ w, w ∈ _dict a ↔ terminal (_nodes a) w;
  dict_ghosts : _dict a ## _ghosts a;
}.

Record Inv (a : AhoCorasick) : Prop := {
  inv_wf : trie_wf (_next a) (_nodes a);
  inv_cache : cache_ok (_nodes a);
  inv_dict : dict_ok a;
}.

(** ** States that differ in the memoized fields only *)

(** [na] is [nb] up to its caches, and the caches of [na] hold what the
    node table [n] determines. *)
Definition node_ext (n : gmap Z Node) (k : Z) (nb na : Node) : Prop :=
  char na = char nb ∧ children na = children nb ∧ end_ na = end_ nb ∧
  parent na = parent nb ∧ suffixOf na = suffixOf nb ∧
  (∀ v, suffix na = Some v → eval n (GetSuffix k) v) ∧
  (suffix na = None → suffix nb = None) ∧
  (∀ w, word na = Some w → spells n k w) ∧
  (word na = None → word nb = None).

Definition memo_ext (b a : AhoCorasick) : Prop :=
  _dict a = _dict b ∧ _ghosts a = _ghosts b ∧ _next a = _next b ∧
  ∀ k, option_Forall2 (node_ext (_nodes b) k) (_nodes b !! k) (_nodes a !! k).

(** The observable part of a node: everything but [suffix] and [word]. *)
Definition same_node (nb na : Node) : Prop :=
  char na = char nb ∧ children na = children nb ∧ end_ na = end_ nb ∧
  parent na = parent nb ∧ suffixOf na = suffixOf nb.

Definition same_observable (b a : AhoCorasick) : Prop :=
  _dict a = _dict b ∧ _ghosts a = _ghosts b ∧ _next a = _next b ∧
  ∀ k, option_Forall2 same_node (_nodes b !! k) (_nodes a !! k).

(** ** Fuel, termination, reachable states *)

(** Fuel that suffices for every call on a well-formed automaton: a node's
    depth is at most its number, and that is at most [_next]. *)
Definition fuel_bound (a : AhoCorasick) : nat := 2 * Z.to_nat (_next a) + 2.

(** The call returns, and its value and final state satisfy [Q]. *)
Definition wp {A} (m : M A) (Q : A → AhoCorasick → Prop) (a : AhoCorasick) : Prop :=
  match m a with
  | Return v a' => Q v a'
  | _ => False
  end.

(** One outcome is the other, or it ran out of fuel. *)
Definition fuel_le {A} (o o' : outcome A) : Prop := o = OutOfFuel ∨ o = o'.

Definition final {A} (o : outcome A) : option AhoCorasick :=
  match o with
  | Return _ a | Throw _ a => Some a
  | OutOfFuel => None
  end.

(** The state a call leaves behind. *)
Definition exec {A} (m : M A) (a : AhoCorasick) : AhoCorasick :=
  match m a with
  | Return _ a' | Throw _ a' => a'
  | OutOfFuel => a
  end.

(** A returning call leaves the dictionary as it was. *)
Definition keeps_dict {A} (m : M A) : Prop :=
  ∀ a v a', m a = Return v a' → _dict a' = _dict a.

(** The states a client can produce through the public methods, whether a
    call returns or throws. *)
Inductive reachable : AhoCorasick → Prop :=
  | reach_new : reachable new_AhoCorasick
  | reach_add fuel w a a' :
      reachable a → final (add fuel w a) = Some a' → reachable a'
  | reach_delete w a a' :
      reachable a → final (delete w a) = Some a' → reachable a'
  | reach_query fuel h a a' :
      reachable a → final (query fuel h a) = Some a' → reachable a'.


(** ** Growth of the trie *)

(** [nd'] is [nd] with, at most, more child edges and the [end] flag set. *)
Definition node_kept (nd nd' : Node) : Prop :=
  char nd' = char nd ∧ parent nd' = parent nd ∧ suffixOf nd' = suffixOf nd ∧
  suffix nd' = suffix nd ∧ word nd' = word nd ∧
  (end_ nd = true → end_ nd' = true) ∧
  (∀ c j, children nd !! c = Some j → children nd' !! c = Some j).

(** [a'] has the nodes of [a], kept, and beyond them exactly the numbers
    from [_next a + 1] to [_next a']. *)
Definition grows (a a' : AhoCorasick) : Prop :=
  _next a ≤ _next a' ∧
  (∀ k nd, _nodes a !! k = Some nd →
           ∃ nd', _nodes a' !! k = Some nd' ∧ node_kept nd nd') ∧
  (∀ k, is_Some (_nodes a' !! k) →
        is_Some (_nodes a !! k) ∨ _next a < k ≤ _next a') ∧
  (∀ k, _next a < k ≤ _next a' → is_Some (_nodes a' !! k)).

(** The node numbers in use: the root and everything from 2 to [_next]. *)
Definition ids_ok (a : AhoCorasick) : Prop :=
  1 ≤ _next a ∧ ∀ k, is_Some (_nodes a !! k) ↔ k = ROOT ∨ 2 ≤ k ≤ _next a.

(** ** Sample automata *)

(** [add("abc"); add("b")] *)
Definition ex_abc_b : AhoCorasick :=
  exec (add 1 "b") (exec (add 1 "abc") new_AhoCorasick).

(** [add("ab"); add("b")] *)
Definition ex_ab_b : AhoCorasick :=
  exec (add 1 "b") (exec (add 1 "ab") new_AhoCorasick).

(** [add("ab"); query("ab"); add("b")] *)
Definition ex_ab_query_b : AhoCorasick :=
  exec (add 1 "b") (exec (query 8 "ab") (exec (add 1 "ab") new_AhoCorasick)).

(** [add("abc"); delete("abc"); add("b")] *)
Definition ex_abc_deleted_b : AhoCorasick :=
  exec (add 1 "b") (exec (delete "abc") (exec (add 1 "abc") new_AhoCorasick)).

(** [add("b")] *)
Definition ex_b : AhoCorasick := exec (add 1 "b") new_AhoCorasick.

(** [add("he"); add("she"); add("his"); add("hers")] *)
Definition ex_textbook : AhoCorasick :=
  exec (add 1 "hers") (exec (add 1 "his") (exec (add 1 "she")
    (exec (add 1 "he") new_AhoCorasick))).

(** * Verification *)

(** ** Strings: suffixes and substrings *)

Lemma sapp_cons (c : ascii) (s t : string) : String c s +:+ t = String c (s +:+ t).
Proof. reflexivity. Qed.

Lemma sapp_nil_l (s : string) : "" +:+ s = s.
Proof. reflexivity. Qed.

Lemma sapp_nil_r (s : string) : s +:+ "" = s.
Proof. induction s as [|c s IH]; [done|]. by rewrite sapp_cons, IH. Qed.

Lemma sapp_assoc (s t u : string) : (s +:+ t) +:+ u = s +:+ t +:+ u.
Proof. induction s as [|c s IH]; [done|]. by rewrite !sapp_cons, IH. Qed.

Lemma slength_app (s t : string) :
  String.length (s +:+ t) = (String.length s + String.length t)%nat.
Proof. induction s as [|c s IH]; [done|]. rewrite sapp_cons. simpl. by rewrite IH. Qed.

Lemma sapp_eq_nil (s t : string) : s +:+ t = "" → s = "" ∧ t = "".
Proof. destruct s; [done|]. by rewrite sapp_cons. Qed.


(** Every string is empty or ends in a character. *)
Lemma string_snoc_case (s : string) : s = "" ∨ ∃ t c, s = t +:+ char1 c.
Proof.
  induction s as [|x s IH]; [by left|right].
  destruct IH as [->|(t & c & ->)].
  - by exists "", x.
  - by exists (String x t), c.
Qed.

Lemma string_snoc_ind (P : string → Prop) :
  P "" → (∀ t c, P t → P (t +:+ char1 c)) → ∀ s, P s.
Proof.
  intros H0 HS s.
  remember (String.length s) as n eqn:Hn. revert s Hn.
  induction n as [|n IH]; intros s Hn.
  - destruct s; [done|discriminate].
  - destruct (string_snoc_case s) as [->|(t & c & ->)]; [done|].
    apply HS, IH. rewrite slength_app in Hn. simpl in Hn. lia.
Qed.

Lemma is_suffix_refl (w : string) : is_suffix w w.
Proof. by exists "". Qed.

Lemma is_suffix_nil (w : string) : is_suffix "" w.
Proof. exists w. by rewrite sapp_nil_r. Qed.

Lemma is_suffix_trans (u v w : string) : is_suffix u v → is_suffix v w → is_suffix u w.
Proof. intros [p ->] [q ->]. exists (q +:+ p). by rewrite sapp_assoc. Qed.

Lemma proper_is_suffix (u w : string) : proper_suffix u w → is_suffix u w.
Proof. intros (p & _ & ->). by exists p. Qed.

Lemma proper_suffix_length (u w : string) :
  proper_suffix u w → (String.length u < String.length w)%nat.
Proof.
  intros (p & Hp & ->). rewrite slength_app. destruct p; [done|]. simpl. lia.
Qed.


Lemma proper_suffix_snoc (u w c : string) :
  proper_suffix u w → proper_suffix (u +:+ c) (w +:+ c).
Proof. intros (p & Hp & ->). exists p. by rewrite sapp_assoc. Qed.

Lemma is_suffix_proper_trans (u v w : string) :
  is_suffix u v → proper_suffix v w → proper_suffix u w.
Proof.
  intros [p ->] (q & Hq & ->). exists (q +:+ p). rewrite sapp_assoc. split; [|done].
  intros [? ?]%sapp_eq_nil. done.
Qed.

Lemma is_suffix_substring (u w h : string) : is_suffix u w → is_substring u (w +:+ h).
Proof. intros [p ->]. exists p, h. by rewrite sapp_assoc. Qed.

Lemma is_substring_extend (u v w h : string) :
  is_suffix v w → is_substring u (v +:+ h) → is_substring u (w +:+ h).
Proof.
  intros [p ->] (q & r & E). exists (p +:+ q), r.
  by rewrite !sapp_assoc, <- E.
Qed.

(** ** Rules for [wp] *)

Lemma wp_ret {A} (v : A) (Q : A → AhoCorasick → Prop) a : Q v a → wp (ret v) Q a.
Proof. done. Qed.

Lemma wp_bind {A B} (m : M A) (f : A → M B) (Q : B → AhoCorasick → Prop) a :
  wp m (λ v a', wp (f v) Q a') a → wp (bind m f) Q a.
Proof. unfold wp, bind. by destruct (m a). Qed.

Lemma wp_mono {A} (m : M A) (Q Q' : A → AhoCorasick → Prop) a :
  wp m Q a → (∀ v a', Q v a' → Q' v a') → wp m Q' a.
Proof. unfold wp. destruct (m a); auto. Qed.

Lemma wp_node_at k nd (Q : Node → AhoCorasick → Prop) a :
  _nodes a !! k = Some nd → Q nd a → wp (node_at k) Q a.
Proof. unfold wp, node_at. by intros ->. Qed.

Lemma wp_update_node k f nd (Q : unit → AhoCorasick → Prop) a :
  _nodes a !! k = Some nd → Q tt (with_nodes (<[k:=f nd]>) a) → wp (update_node k f) Q a.
Proof. unfold wp, update_node. by intros ->. Qed.

Lemma wp_Return {A} (m : M A) (Q : A → AhoCorasick → Prop) a :
  wp m Q a ↔ ∃ v a', m a = Return v a' ∧ Q v a'.
Proof.
  unfold wp. split.
  - destruct (m a) as [v a'| |]; [|done..]. by exists v, a'.
  - by intros (v & a' & -> & ?).
Qed.

(** ** Paths *)

Lemma walk_app n s t k : walk n (s +:+ t) k = walk n s k ≫= walk n t.
Proof.
  revert k. induction s as [|c s IH]; intros k; [done|].
  rewrite sapp_cons. simpl.
  destruct (n !! k) as [nd|]; [|done].
  destruct (children nd !! char1 c); [|done]. apply IH.
Qed.

Lemma walk_char n c k :
  walk n (char1 c) k = nd ← n !! k; children nd !! char1 c.
Proof.
  simpl. destruct (n !! k) as [nd|]; [|done]. simpl.
  by destruct (children nd !! char1 c).
Qed.


Lemma walk_snoc n t c k :
  walk n (t +:+ char1 c) k = p ← walk n t k; nd ← n !! p; children nd !! char1 c.
Proof. rewrite walk_app. destruct (walk n t k); [|done]. apply walk_char. Qed.

Lemma spells_snoc n k t c :
  spells n k (t +:+ char1 c) ↔
  ∃ p np, spells n p t ∧ n !! p = Some np ∧ children np !! char1 c = Some k.
Proof.
  unfold spells. rewrite walk_snoc. split.
  - destruct (walk n t ROOT) as [p|]; [|done]. simpl.
    destruct (n !! p) as [np|] eqn:Hp; [|done]. simpl. intros ?. by exists p, np.
  - intros (p & np & -> & Hp & Hc). simpl. by rewrite Hp.
Qed.

Section trie.
Context (next : Z) (n : gmap Z Node) (Hwf : trie_wf next n).

Lemma spells_is_node k w : spells n k w → is_Some (n !! k).
Proof.
  destruct (string_snoc_case w) as [->|(t & c & ->)].
  - intros [= <-]. destruct (wf_root _ _ Hwf) as (r & -> & _). eauto.
  - intros (p & np & _ & Hp & Hc)%spells_snoc.
    destruct (wf_edge _ _ Hwf _ _ _ _ Hp Hc) as (_ & nk & -> & _). eauto.
Qed.

(** Node numbers grow along every path, so a node's depth is at most its
    number. *)
Lemma spells_depth k w : spells n k w → Z.of_nat (String.length w) ≤ k.
Proof.
  revert k. induction w as [|t c IH] using string_snoc_ind; intros k.
  - intros [= <-]. done.
  - intros (p & np & Ht & Hp & Hc)%spells_snoc.
    destruct (wf_edge _ _ Hwf _ _ _ _ Hp Hc) as (Hlt & _).
    apply IH in Ht. rewrite slength_app. simpl. lia.
Qed.

Lemma spells_depth_next k w : spells n k w → (String.length w ≤ Z.to_nat next)%nat.
Proof.
  intros Hs. pose proof (spells_depth _ _ Hs).
  destruct (spells_is_node _ _ Hs) as [nd Hnd].
  pose proof (wf_dom _ _ Hwf _ _ Hnd). lia.
Qed.

Lemma spells_root w : spells n ROOT w → w = "".
Proof.
  intros Hs%spells_depth. destruct w; [done|]. simpl in Hs. unfold ROOT in Hs. lia.
Qed.

(** A node spells one word only. *)
Lemma spells_inj k w w' : spells n k w → spells n k w' → w = w'.
Proof.
  revert k w'. induction w as [|t c IH] using string_snoc_ind; intros k w'.
  - intros [= <-] Hs. symmetry. by apply spells_root.
  - intros (p & np & Ht & Hp & Hc)%spells_snoc Hs'.
    destruct (wf_edge _ _ Hwf _ _ _ _ Hp Hc) as (Hlt & nk & Hk & Hpar & Hch).
    destruct (string_snoc_case w') as [->|(t' & c' & ->)].
    + injection Hs' as <-. apply spells_depth in Ht. unfold ROOT in *. lia.
    + apply spells_snoc in Hs' as (p' & np' & Ht' & Hp' & Hc').
      destruct (wf_edge _ _ Hwf _ _ _ _ Hp' Hc') as (_ & nk' & Hk' & Hpar' & Hch').
      simplify_eq. rewrite Hch in Hch'. injection Hch' as <-.
      by rewrite (IH _ _ Ht Ht').
Qed.

(** A spelled node other than the root hangs below its parent, on the edge
    labelled with its own character. *)
Lemma spells_parent k nd w :
  spells n k w → n !! k = Some nd → k ≠ ROOT →
  ∃ t c, w = t +:+ char1 c ∧ char nd = char1 c ∧ spells n (parent nd) t.
Proof.
  intros Hs Hk Hne.
  destruct (string_snoc_case w) as [->|(t & c & ->)].
  - by injection Hs as <-.
  - apply spells_snoc in Hs as (p & np & Ht & Hp & Hc).
    destruct (wf_edge _ _ Hwf _ _ _ _ Hp Hc) as (_ & nk & Hk' & Hpar & Hch).
    simplify_eq. by exists t, c.
Qed.

Lemma spells_child k nd w c k' :
  spells n k w → n !! k = Some nd → children nd !! char1 c = Some k' →
  spells n k' (w +:+ char1 c).
Proof. intros. apply spells_snoc. eauto. Qed.
End trie.

(** ** The values of [_getSuffix] and [_transition] *)

Lemma eval_det n q v v' : eval n q v → eval n q v' → v = v'.
Proof.
  intros H. revert v'.
  induction H as [k nd v Hk Hs|k nd Hk Hs Hp|k nd ps v Hk Hs Hp _ IH1 _ IH2
                 |k nd c v Hk Hc|nd c Hk Hc|k nd c f v Hk Hc Hne _ IH1 _ IH2];
    intros v' H'; inversion H'; simplify_eq; try done.
  - rewrite <- (IH1 _ ltac:(eassumption)) in *. by apply IH2.
  - rewrite <- (IH1 _ ltac:(eassumption)) in *. by apply IH2.
Qed.

Section eval_good.
Context (next : Z) (n : gmap Z Node) (Hwf : trie_wf next n) (Hc : cache_ok n).

Lemma eval_good q v : eval n q v → good n q v.
Proof.
  induction 1 as [k nd v Hk Hs|k nd Hk Hs Hp|k nd ps v Hk Hs Hp _ IH1 _ IH2
                 |k nd c v Hk Hch|nd c Hk Hch|k nd c f v Hk Hch Hne _ IH1 _ IH2];
    simpl in *.
  - intros w Hw. destruct (decide (k = ROOT)) as [->|Hne].
    + left. destruct (wf_root _ _ Hwf) as (r & Hr & Hsr & _). by simplify_eq.
    + right. split; [done|].
      destruct (cache_suffix _ Hc _ _ _ Hk Hs Hne) as (w' & u & Hw' & Hu & Hp).
      rewrite (spells_inj _ _ Hwf _ _ _ Hw Hw'). eauto.
  - intros w Hw.
    assert (k ≠ ROOT) as Hne.
    { intros ->. destruct (wf_root _ _ Hwf) as (r & Hr & Hsr & _). by simplify_eq. }
    right. split; [done|].
    destruct (spells_parent _ _ Hwf _ _ _ Hw Hk Hne) as (t & c & -> & _ & Ht).
    rewrite Hp in Ht. apply (spells_root _ _ Hwf) in Ht as ->.
    exists "". split; [done|]. exists (char1 c). split; [done|]. by rewrite sapp_nil_r.
  - intros w Hw.
    assert (k ≠ ROOT) as Hne.
    { intros ->. destruct (wf_root _ _ Hwf) as (r & Hr & Hsr & _). by simplify_eq. }
    right. split; [done|].
    destruct (spells_parent _ _ Hwf _ _ _ Hw Hk Hne) as (t & c & -> & Hch & Ht).
    destruct (IH1 _ Ht) as [[? _]|(_ & u & Hu & Hpu)]; [done|].
    destruct (IH2 _ _ Hch Hu) as (u' & Hu' & Hsu').
    exists u'. split; [done|]. rewrite Hch in Hsu'.
    eapply is_suffix_proper_trans; [done|]. by apply proper_suffix_snoc.
  - intros w x -> Hw. exists (w +:+ char1 x). split; [|apply is_suffix_refl].
    by eapply spells_child.
  - intros w x -> Hw. exists "". split; [done|apply is_suffix_nil].
  - intros w x -> Hw.
    destruct (IH1 _ Hw) as [[? _]|(_ & u & Hu & Hpu)]; [done|].
    destruct (IH2 _ _ eq_refl Hu) as (u' & Hu' & Hsu').
    exists u'. split; [done|]. eapply is_suffix_trans; [done|].
    apply proper_is_suffix. by apply proper_suffix_snoc.
Qed.
End eval_good.

(** ** Caches may grow, the trie stays *)

Lemma memo_ext_lookup b a k nb :
  memo_ext b a → _nodes b !! k = Some nb →
  ∃ na, _nodes a !! k = Some na ∧ node_ext (_nodes b) k nb na.
Proof.
  intros (_ & _ & _ & H) Hk. specialize (H k). rewrite Hk in H.
  inversion H; simplify_eq. eauto.
Qed.

Lemma memo_ext_lookup_inv b a k na :
  memo_ext b a → _nodes a !! k = Some na →
  ∃ nb, _nodes b !! k = Some nb ∧ node_ext (_nodes b) k nb na.
Proof.
  intros (_ & _ & _ & H) Hk. specialize (H k). rewrite Hk in H.
  inversion H; simplify_eq. eauto.
Qed.

Lemma memo_ext_walk b a w k :
  memo_ext b a → walk (_nodes a) w k = walk (_nodes b) w k.
Proof.
  intros (_ & _ & _ & H). revert k. induction w as [|c w IH]; intros k; [done|].
  simpl. specialize (H k).
  destruct H as [nb na (_ & -> & _)|]; [|done].
  destruct (children nb !! char1 c); [apply IH|done].
Qed.

Lemma memo_ext_refl b : Inv b → memo_ext b b.
Proof.
  intros [_ Hc _]. repeat split.
  intros k. destruct (_nodes b !! k) as [nb|] eqn:Hk; constructor.
  repeat split; try done.
  - intros v Hv. by eapply eval_memo.
  - intros w Hw. by eapply cache_word.
Qed.

Lemma memo_ext_set_suffix b a k na v :
  memo_ext b a → _nodes a !! k = Some na → eval (_nodes b) (GetSuffix k) v →
  memo_ext b (with_nodes (<[k:=set_suffix (Some v) na]>) a).
Proof.
  intros Hext Hk Hv.
  destruct (memo_ext_lookup_inv _ _ _ _ Hext Hk) as (nb & Hb & Hn).
  destruct Hext as (? & ? & ? & H). repeat split; try done.
  intros j. simpl. destruct (decide (k = j)) as [<-|Hne].
  - rewrite lookup_insert_eq, Hb. constructor.
    destruct Hn as (? & ? & ? & ? & ? & ? & ? & ? & ?).
    repeat split; simpl; try done. intros ? ?. by simplify_eq.
  - rewrite lookup_insert_ne by done. apply H.
Qed.

Lemma memo_ext_set_word b a k na w :
  memo_ext b a → _nodes a !! k = Some na → spells (_nodes b) k w →
  memo_ext b (with_nodes (<[k:=set_word (Some w) na]>) a).
Proof.
  intros Hext Hk Hw.
  destruct (memo_ext_lookup_inv _ _ _ _ Hext Hk) as (nb & Hb & Hn).
  destruct Hext as (? & ? & ? & H). repeat split; try done.
  intros j. simpl. destruct (decide (k = j)) as [<-|Hne].
  - rewrite lookup_insert_eq, Hb. constructor.
    destruct Hn as (? & ? & ? & ? & ? & ? & ? & ? & ?).
    repeat split; simpl; try done. intros ? ?. by simplify_eq.
  - rewrite lookup_insert_ne by done. apply H.
Qed.

Lemma memo_ext_same_observable b a : memo_ext b a → same_observable b a.
Proof.
  intros (? & ? & ? & H). repeat split; try done.
  intros k. destruct (H k) as [nb na Hn|]; constructor.
  destruct Hn as (? & ? & ? & ? & ? & _). by repeat split.
Qed.

(** The invariant does not depend on which links and words are cached. *)
Lemma memo_ext_Inv b a : Inv b → memo_ext b a → Inv a.
Proof.
  intros [Hwf Hc Hd] Hext.
  assert (∀ k w, spells (_nodes a) k w ↔ spells (_nodes b) k w) as Hsp.
  { intros k w. unfold spells. by rewrite (memo_ext_walk _ _ _ _ Hext). }
  pose proof Hext as (Ed & Eg & En & H).
  split.
  - rewrite En. split.
    + destruct (wf_root _ _ Hwf) as (r & Hr & Hs & Hw & He).
      destruct (memo_ext_lookup _ _ _ _ Hext Hr)
        as (ra & Hra & _ & _ & Hea & _ & _ & Hev & Hsn & Hwd & Hwn).
      exists ra. split; [done|]. repeat split.
      * destruct (suffix ra) as [v|] eqn:E.
        -- f_equal. eapply eval_det; [by apply Hev|]. by eapply eval_memo.
        -- rewrite Hsn in Hs; done.
      * destruct (word ra) as [w|] eqn:E.
        -- f_equal. by apply (spells_root _ _ Hwf), Hwd.
        -- rewrite Hwn in Hw; done.
      * congruence.
    + intros k na Hk.
      destruct (memo_ext_lookup_inv _ _ _ _ Hext Hk) as (nb & Hb & _).
      by eapply wf_dom.
    + intros p np c k Hp Hch.
      destruct (memo_ext_lookup_inv _ _ _ _ Hext Hp) as (nb & Hb & _ & Ec & _).
      rewrite Ec in Hch.
      destruct (wf_edge _ _ Hwf _ _ _ _ Hb Hch) as (? & nk & Hk & ? & ?).
      split; [done|].
      destruct (memo_ext_lookup _ _ _ _ Hext Hk) as (ka & Hka & E1 & _ & _ & E2 & _).
      exists ka. split; [done|]. split; congruence.
    + intros k na Hk.
      destruct (memo_ext_lookup_inv _ _ _ _ Hext Hk) as (nb & Hb & _ & _ & _ & _ & E & _).
      rewrite E. by eapply wf_suffixOf.
    + intros k na Hk.
      destruct (memo_ext_lookup_inv _ _ _ _ Hext Hk) as (nb & Hb & _).
      destruct (wf_spelled _ _ Hwf _ _ Hb) as [w Hw]. exists w. by apply Hsp.
  - split.
    + intros k na f Hk Hs Hne.
      destruct (memo_ext_lookup_inv _ _ _ _ Hext Hk)
        as (nb & Hb & _ & _ & _ & _ & _ & Hev & _).
      destruct (wf_spelled _ _ Hwf _ _ Hb) as [w Hw].
      destruct (eval_good _ _ Hwf Hc _ _ (Hev _ Hs) _ Hw) as [[? _]|(_ & u & Hu & Hp)];
        [done|].
      exists w, u. by rewrite !Hsp.
    + intros k na w Hk Hw.
      destruct (memo_ext_lookup_inv _ _ _ _ Hext Hk)
        as (nb & Hb & _ & _ & _ & _ & _ & _ & _ & Hwd & _).
      apply Hsp. by apply Hwd.
  - split.
    + intros w. rewrite Ed, (dict_end _ Hd). split.
      * intros (k & nb & Hw & Hb & He).
        destruct (memo_ext_lookup _ _ _ _ Hext Hb) as (na & Hka & _ & _ & Ee & _).
        exists k, na. rewrite Hsp. split; [done|]. split; [done|]. congruence.
      * intros (k & na & Hw & Hka & He).
        destruct (memo_ext_lookup_inv _ _ _ _ Hext Hka) as (nb & Hb & _ & _ & Ee & _).
        exists k, nb. rewrite <- Hsp. split; [done|]. split; [done|]. congruence.
    + rewrite Ed, Eg. apply (dict_ghosts _ Hd).
Qed.

(** ** [_getSuffix] and [_transition] return what [eval] says *)

Section run.
Context (b : AhoCorasick) (Hinv : Inv b).

Local Abbreviation n := (_nodes b).

Lemma suffix_transition_spec (fuel : nat) :
  (∀ k w a,
      memo_ext b a → spells n k w → (2 * String.length w + 1 ≤ fuel)%nat →
      wp (_getSuffix fuel k)
         (λ v a', memo_ext b a' ∧ eval n (GetSuffix k) v) a) ∧
  (∀ k w x a,
      memo_ext b a → spells n k w → (2 * String.length w + 2 ≤ fuel)%nat →
      wp (_transition fuel k (char1 x))
         (λ v a', memo_ext b a' ∧ eval n (Transition k (char1 x)) v) a).
Proof.
  destruct Hinv as [Hwf Hc Hd].
  induction fuel as [|fuel [IHs IHt]]; [split; intros; lia|].
  split.
  - intros k w a Hext Hw Hfuel.
    destruct (spells_is_node _ _ Hwf _ _ Hw) as [nb Hb].
    destruct (memo_ext_lookup _ _ _ _ Hext Hb) as (na & Ha & Hn).
    cbn [_getSuffix]. apply wp_bind. eapply wp_node_at; [done|].
    destruct (suffix na) as [v|] eqn:Hsa.
    { apply wp_ret. split; [done|]. by apply Hn. }
    assert (suffix nb = None) as Hsb by by apply Hn.
    assert (k ≠ ROOT) as Hne.
    { intros ->. destruct (wf_root _ _ Hwf) as (r & Hr & Hsr & _).
      by simplify_eq. }
    destruct (spells_parent _ _ Hwf _ _ _ Hw Hb Hne) as (t & c & -> & Hch & Ht).
    rewrite slength_app in Hfuel. simpl in Hfuel.
    apply wp_bind.
    eapply wp_mono with (Q := λ v a', memo_ext b a' ∧ eval n (GetSuffix k) v).
    + apply wp_bind. eapply wp_node_at; [done|].
      assert (parent na = parent nb) as -> by apply Hn.
      destruct (decide (parent nb = ROOT)) as [Hp|Hp].
      { apply wp_ret. split; [done|]. by eapply eval_top. }
      apply wp_bind. eapply wp_node_at; [done|].
      assert (parent na = parent nb) as -> by apply Hn.
      apply wp_bind. eapply wp_mono; [apply (IHs _ t); [done|done|lia]|].
      intros ps a1 [Hext1 Hev1]. simpl in Hev1.
      destruct (memo_ext_lookup _ _ _ _ Hext1 Hb) as (na1 & Ha1 & Hn1).
      apply wp_bind. eapply wp_node_at; [done|].
      assert (char na1 = char1 c) as -> by (rewrite <- Hch; apply Hn1).
      destruct (eval_good _ _ Hwf Hc _ _ Hev1 _ Ht) as [[? _]|(_ & u & Hu & Hpu)];
        [done|].
      apply proper_suffix_length in Hpu.
      eapply wp_mono; [apply (IHt _ u); [done|done|lia]|].
      intros v a2 [Hext2 Hev2]. split; [done|].
      eapply eval_down; [done|done|done|done|]. by rewrite Hch.
    + intros v a1 [Hext1 Hev1].
      destruct (memo_ext_lookup _ _ _ _ Hext1 Hb) as (na1 & Ha1 & Hn1).
      apply wp_bind. eapply wp_update_node; [done|].
      apply wp_ret. split; [|done]. by apply memo_ext_set_suffix.
  - intros k w x a Hext Hw Hfuel.
    destruct (spells_is_node _ _ Hwf _ _ Hw) as [nb Hb].
    destruct (memo_ext_lookup _ _ _ _ Hext Hb) as (na & Ha & Hn).
    cbn [_transition]. apply wp_bind. eapply wp_node_at; [done|].
    assert (children na = children nb) as -> by apply Hn.
    destruct (children nb !! char1 x) as [child|] eqn:Hch.
    { apply wp_ret. split; [done|]. by eapply eval_goto. }
    destruct (decide (k = ROOT)) as [->|Hne].
    { apply wp_ret. split; [done|]. by eapply eval_stay. }
    apply wp_bind. eapply wp_mono; [apply (IHs _ w); [done|done|lia]|].
    intros f a1 [Hext1 Hev1].
    destruct (eval_good _ _ Hwf Hc _ _ Hev1 _ Hw) as [[? _]|(_ & u & Hu & Hpu)];
      [done|].
    apply proper_suffix_length in Hpu.
    eapply wp_mono; [apply (IHt _ u); [done|done|lia]|].
    intros v a2 [Hext2 Hev2]. split; [done|]. by eapply eval_fail.
Qed.

Lemma getSuffix_spec fuel k w a :
  memo_ext b a → spells n k w → (fuel_bound b ≤ fuel)%nat →
  wp (_getSuffix fuel k) (λ v a', memo_ext b a' ∧ eval n (GetSuffix k) v) a.
Proof.
  intros Hext Hw Hfuel. eapply (proj1 (suffix_transition_spec fuel)); [done..|].
  pose proof (spells_depth_next _ _ (inv_wf _ Hinv) _ _ Hw).
  unfold fuel_bound in Hfuel. lia.
Qed.

Lemma transition_spec fuel k w x a :
  memo_ext b a → spells n k w → (fuel_bound b ≤ fuel)%nat →
  wp (_transition fuel k (char1 x))
     (λ v a', memo_ext b a' ∧ eval n (Transition k (char1 x)) v) a.
Proof.
  intros Hext Hw Hfuel. eapply (proj2 (suffix_transition_spec fuel)); [done..|].
  pose proof (spells_depth_next _ _ (inv_wf _ Hinv) _ _ Hw).
  unfold fuel_bound in Hfuel. lia.
Qed.

(** [_getWord] returns the word the node spells. *)
Lemma getWord_spec fuel k w a :
  memo_ext b a → spells n k w → (String.length w + 1 ≤ fuel)%nat →
  wp (_getWord fuel k) (λ v a', memo_ext b a' ∧ v = w) a.
Proof.
  destruct Hinv as [Hwf Hc Hd].
  revert k w a. induction fuel as [|fuel IH]; intros k w a Hext Hw Hfuel; [lia|].
  destruct (spells_is_node _ _ Hwf _ _ Hw) as [nb Hb].
  destruct (memo_ext_lookup _ _ _ _ Hext Hb) as (na & Ha & Hn).
  cbn [_getWord]. apply wp_bind. eapply wp_node_at; [done|].
  destruct (word na) as [v|] eqn:Hwa.
  { apply wp_ret. split; [done|]. eapply (spells_inj _ _ Hwf); [|done]. by apply Hn. }
  assert (word nb = None) as Hwb by by apply Hn.
  assert (k ≠ ROOT) as Hne.
  { intros ->. destruct (wf_root _ _ Hwf) as (r & Hr & _ & Hwr & _).
    by simplify_eq. }
  destruct (spells_parent _ _ Hwf _ _ _ Hw Hb Hne) as (t & c & -> & Hch & Ht).
  rewrite slength_app in Hfuel. simpl in Hfuel.
  apply wp_bind. eapply wp_node_at; [done|].
  assert (parent na = parent nb) as -> by apply Hn.
  apply wp_bind. eapply wp_mono; [apply (IH _ t); [done|done|lia]|].
  intros ? a1 [Hext1 ->].
  destruct (memo_ext_lookup _ _ _ _ Hext1 Hb) as (na1 & Ha1 & Hn1).
  apply wp_bind. eapply wp_node_at; [done|].
  assert (char na1 = char1 c) as -> by (rewrite <- Hch; apply Hn1).
  apply wp_bind. eapply wp_update_node; [done|].
  apply wp_ret. split; [|done]. by apply memo_ext_set_word.
Qed.

(** The words collected along the chain of failure links. The list is
    fixed by the trie and the links it determines, whatever is cached. *)
Lemma getWords_loop_spec curr w :
  spells n curr w →
  ∃ l, Forall (λ u, u ∈ _dict b ∧ is_suffix u w) l ∧
       ∀ fuel steps a result,
         memo_ext b a → (fuel_bound b ≤ fuel)%nat → (String.length w ≤ steps)%nat →
         wp (_getWords_loop fuel steps curr result)
            (λ v a', memo_ext b a' ∧ v = result ++ l) a.
Proof.
  pose proof Hinv as [Hwf Hc Hd].
  remember (String.length w) as m eqn:Hm.
  assert (String.length w ≤ m)%nat as Hle by lia. clear Hm.
  revert curr w Hle. induction m as [|m IH]; intros curr w Hle Hw.
  - destruct w; [|simpl in Hle; lia]. injection Hw as <-.
    exists []. split; [done|]. intros fuel steps a result Hext _ _.
    destruct steps; simpl; (apply wp_ret; split; [done|]; by rewrite app_nil_r).
  - destruct (decide (curr = ROOT)) as [->|Hne].
    { exists []. split; [done|]. intros fuel steps a result Hext _ _.
      destruct steps; simpl; (apply wp_ret; split; [done|]; by rewrite app_nil_r). }
    pose proof (getSuffix_spec (fuel_bound b) curr w b (memo_ext_refl _ Hinv) Hw
                  ltac:(lia)) as Hrun.
    apply wp_Return in Hrun as (v & ? & _ & _ & Hev).
    destruct (eval_good _ _ Hwf Hc _ _ Hev _ Hw) as [[? _]|(_ & u & Hu & Hpu)];
      [done|].
    pose proof (proper_suffix_length _ _ Hpu) as Hlen.
    destruct (IH v u ltac:(lia) Hu) as (l & Hl & Hloop).
    destruct (spells_is_node _ _ Hwf _ _ Hu) as [nv Hv].
    assert (Forall (λ u0, u0 ∈ _dict b ∧ is_suffix u0 w) l) as Hl'.
    { eapply Forall_impl; [done|]. intros y [? ?]. split; [done|].
      eapply is_suffix_trans; [done|]. by apply proper_is_suffix. }
    exists (if end_ nv then u :: l else l). split.
    { destruct (end_ nv) eqn:He; [|done]. constructor; [|done]. split.
      - apply (dict_end _ Hd). by exists v, nv.
      - by apply proper_is_suffix. }
    intros fuel steps a result Hext Hfuel Hsteps.
    destruct steps as [|steps]; [lia|]. simpl.
    rewrite decide_False by done.
    apply wp_bind. eapply wp_mono; [by eapply getSuffix_spec|].
    intros v' a1 [Hext1 Hev1]. rewrite (eval_det _ _ _ _ Hev1 Hev).
    destruct (memo_ext_lookup _ _ _ _ Hext1 Hv) as (na & Ha & Hn).
    apply wp_bind. eapply wp_node_at; [done|].
    assert (end_ na = end_ nv) as -> by apply Hn.
    pose proof (spells_depth_next _ _ Hwf _ _ Hu).
    destruct (end_ nv).
    + apply wp_bind. eapply wp_mono.
      { eapply (getWord_spec fuel v u); [done|done|]. unfold fuel_bound in Hfuel. lia. }
      intros ? a2 [Hext2 ->].
      eapply wp_mono; [apply Hloop; [done|done|lia]|].
      intros r a3 [Hext3 ->]. split; [done|]. by rewrite <- app_assoc.
    + apply Hloop; [done|done|lia].
Qed.

Lemma getWords_spec k w :
  spells n k w →
  ∃ l, Forall (λ u, u ∈ _dict b ∧ is_suffix u w) l ∧
       ∀ fuel a,
         memo_ext b a → (fuel_bound b ≤ fuel)%nat →
         wp (_getWords fuel k) (λ v a', memo_ext b a' ∧ v = l) a.
Proof.
  pose proof Hinv as [Hwf Hc Hd]. intros Hw.
  destruct (getWords_loop_spec _ _ Hw) as (l & Hl & Hloop).
  destruct (spells_is_node _ _ Hwf _ _ Hw) as [nb Hb].
  pose proof (spells_depth_next _ _ Hwf _ _ Hw).
  exists (if end_ nb then w :: l else l). split.
  { destruct (end_ nb) eqn:He; [|done]. constructor; [|done]. split.
    - apply (dict_end _ Hd). by exists k, nb.
    - apply is_suffix_refl. }
  intros fuel a Hext Hfuel. unfold fuel_bound in Hfuel. unfold _getWords.
  destruct (memo_ext_lookup _ _ _ _ Hext Hb) as (na & Ha & Hn).
  apply wp_bind. eapply wp_node_at; [done|].
  assert (end_ na = end_ nb) as -> by apply Hn.
  apply wp_bind. destruct (end_ nb).
  - apply wp_bind. eapply wp_mono; [eapply (getWord_spec fuel k w); [done|done|lia]|].
    intros ? a1 [Hext1 ->]. apply wp_ret.
    eapply wp_mono; [apply Hloop; [done|unfold fuel_bound; lia|lia]|].
    by intros r a2 [Hext2 ->].
  - apply wp_ret.
    eapply wp_mono; [apply Hloop; [done|unfold fuel_bound; lia|lia]|].
    by intros r a2 [Hext2 ->].
Qed.

(** The scan: [w] is the word of the current node, a suffix of what has
    been read. Whatever is reported is in the dictionary and occurs in the
    text. *)
Lemma query_loop_spec h : ∀ curr w,
  spells n curr w →
  ∃ R : gset string,
    (∀ u, u ∈ R → u ∈ _dict b ∧ is_substring u (w +:+ h)) ∧
    ∀ fuel a results,
      memo_ext b a → (fuel_bound b ≤ fuel)%nat →
      wp (query_loop fuel h curr results)
         (λ v a', memo_ext b a' ∧ v = results ∪ R) a.
Proof.
  pose proof Hinv as [Hwf Hc Hd].
  induction h as [|c rest IH]; intros curr w Hw.
  - exists ∅. split; [set_solver|]. intros fuel a results Hext _. simpl.
    apply wp_ret. split; [done|]. by rewrite union_empty_r_L.
  - pose proof (transition_spec (fuel_bound b) curr w c b (memo_ext_refl _ Hinv) Hw
                  ltac:(lia)) as Hrun.
    apply wp_Return in Hrun as (v & ? & _ & _ & Hev).
    destruct (eval_good _ _ Hwf Hc _ _ Hev _ _ eq_refl Hw) as (u & Hu & Hsu).
    destruct (IH v u Hu) as (R & HR & Hloop).
    destruct (getWords_spec _ _ Hu) as (l & Hl & Hwords).
    destruct (spells_is_node _ _ Hwf _ _ Hu) as [nv Hv].
    assert (w +:+ String c rest = (w +:+ char1 c) +:+ rest) as Happ.
    { by rewrite sapp_assoc. }
    exists ((if end_ nv then list_to_set l else ∅) ∪ R). split.
    { intros y [Hx|Hx]%elem_of_union.
      - destruct (end_ nv); [|set_solver].
        apply elem_of_list_to_set in Hx.
        rewrite Forall_forall in Hl. destruct (Hl _ Hx) as [? Hs]. split; [done|].
        rewrite Happ. apply is_suffix_substring. by eapply is_suffix_trans.
      - destruct (HR _ Hx) as [? Hs]. split; [done|].
        rewrite Happ. by eapply is_substring_extend. }
    intros fuel a results Hext Hfuel. simpl.
    apply wp_bind. eapply wp_mono; [by eapply transition_spec|].
    intros v' a1 [Hext1 Hev1]. rewrite (eval_det _ _ _ _ Hev1 Hev).
    destruct (memo_ext_lookup _ _ _ _ Hext1 Hv) as (na & Ha & Hn).
    apply wp_bind. eapply wp_node_at; [done|].
    assert (end_ na = end_ nv) as -> by apply Hn.
    destruct (end_ nv).
    + apply wp_bind. eapply wp_mono; [by apply Hwords|].
      intros ? a2 [Hext2 ->].
      eapply wp_mono; [by apply Hloop|].
      intros r a3 [Hext3 ->]. split; [done|]. by rewrite (assoc_L (∪)).
    + eapply wp_mono; [by apply Hloop|].
      intros r a3 [Hext3 ->]. split; [done|]. by rewrite union_empty_l_L.
Qed.

Lemma query_spec h :
  ∃ R : gset string,
    (∀ u, u ∈ R → u ∈ _dict b ∧ is_substring u h) ∧
    ∀ fuel a,
      memo_ext b a → (fuel_bound b ≤ fuel)%nat →
      wp (query fuel h) (λ v a', memo_ext b a' ∧ v = R) a.
Proof.
  destruct (query_loop_spec h ROOT "" eq_refl) as (R & HR & Hloop).
  exists R. split; [done|]. intros fuel a Hext Hfuel.
  eapply wp_mono; [by apply Hloop|].
  intros r a' [Hext' ->]. split; [done|]. by rewrite union_empty_l_L.
Qed.
End run.

(** ** Updating one node *)

Lemma walk_same_children (n n' : gmap Z Node) :
  (∀ j, option_Forall2 (λ n1 n2, children n2 = children n1) (n !! j) (n' !! j)) →
  ∀ w k, walk n' w k = walk n w k.
Proof.
  intros H w. induction w as [|c w IH]; intros k; [done|].
  simpl. destruct (H k) as [n1 n2 ->|]; [|done].
  destruct (children n1 !! char1 c); [apply IH|done].
Qed.

(** Assigning the [end] flag of a node other than the root. *)
Section set_end.
Context (next : Z) (n : gmap Z Node) (k : Z) (nd : Node) (e : bool).
Context (Hwf : trie_wf next n) (Hk : n !! k = Some nd) (Hne : k ≠ ROOT).

Local Abbreviation n' := (<[k:=set_end e nd]> n).

Lemma set_end_lookup j nj' :
  n' !! j = Some nj' →
  ∃ nj, n !! j = Some nj ∧ char nj' = char nj ∧ children nj' = children nj ∧
        parent nj' = parent nj ∧ suffixOf nj' = suffixOf nj ∧
        suffix nj' = suffix nj ∧ word nj' = word nj ∧
        end_ nj' = (if decide (j = k) then e else end_ nj).
Proof.
  destruct (decide (k = j)) as [<-|Hj].
  - rewrite lookup_insert_eq. intros [= <-]. exists nd. rewrite decide_True; done.
  - rewrite lookup_insert_ne by done. intros ->. exists nj'.
    rewrite decide_False; done.
Qed.

Lemma set_end_lookup_old j nj :
  n !! j = Some nj →
  ∃ nj', n' !! j = Some nj' ∧ char nj' = char nj ∧ parent nj' = parent nj.
Proof.
  intros Hj. destruct (decide (k = j)) as [<-|Hkj].
  - rewrite lookup_insert_eq. simplify_eq. eauto.
  - rewrite lookup_insert_ne by done. eauto.
Qed.

Lemma set_end_walk w j : walk n' w j = walk n w j.
Proof.
  apply walk_same_children. intros i. destruct (decide (k = i)) as [<-|Hi].
  - rewrite lookup_insert_eq, Hk. by constructor.
  - rewrite lookup_insert_ne by done. destruct (n !! i); by constructor.
Qed.

Lemma set_end_spells j w : spells n' j w ↔ spells n j w.
Proof. unfold spells. by rewrite set_end_walk. Qed.

Lemma set_end_wf : trie_wf next n'.
Proof.
  split.
  - destruct (wf_root _ _ Hwf) as (r & Hr & ?). exists r.
    by rewrite lookup_insert_ne.
  - intros j nj' (nj & Hj & _)%set_end_lookup. by eapply wf_dom.
  - intros p np' c j (np & Hp & _ & Ec & _)%set_end_lookup Hc. rewrite Ec in Hc.
    destruct (wf_edge _ _ Hwf _ _ _ _ Hp Hc) as (? & nj & Hj & ? & ?).
    split; [done|].
    destruct (set_end_lookup_old _ _ Hj) as (nj' & ? & ? & ?).
    exists nj'. split; [done|]. split; congruence.
  - intros j nj' (nj & Hj & _ & _ & _ & E & _)%set_end_lookup. rewrite E.
    by eapply wf_suffixOf.
  - intros j nj' (nj & Hj & _)%set_end_lookup.
    destruct (wf_spelled _ _ Hwf _ _ Hj) as [w Hw]. exists w.
    by apply set_end_spells.
Qed.

Lemma set_end_cache : cache_ok n → cache_ok n'.
Proof.
  intros Hc. split.
  - intros j nj' f (nj & Hj & _ & _ & _ & _ & E & _)%set_end_lookup Hs Hj0.
    rewrite E in Hs.
    destruct (cache_suffix _ Hc _ _ _ Hj Hs Hj0) as (w & u & ? & ? & ?).
    exists w, u. by rewrite !set_end_spells.
  - intros j nj' w (nj & Hj & _ & _ & _ & _ & _ & E & _)%set_end_lookup Hw.
    rewrite E in Hw. apply set_end_spells. by eapply cache_word.
Qed.

Lemma set_end_terminal w0 u :
  spells n k w0 →
  terminal n' u ↔
  if e then terminal n u ∨ u = w0 else terminal n u ∧ u ≠ w0.
Proof.
  intros Hw0. split.
  - intros (j & nj' & Hu%set_end_spells & (nj & Hj & Hrest)%set_end_lookup & He).
    destruct Hrest as (_ & _ & _ & _ & _ & _ & Ee). rewrite Ee in He.
    destruct (decide (j = k)) as [->|Hjk].
    + rewrite He. right. by eapply spells_inj.
    + assert (terminal n u) by (by exists j, nj).
      destruct e; [by left|]. split; [done|]. intros ->.
      apply Hjk. unfold spells in *. congruence.
  - intros H.
    assert (terminal n u ∧ u ≠ w0 → terminal n' u) as Hold.
    { intros [(j & nj & Hu & Hj & He) Hne'].
      assert (k ≠ j) by (intros <-; apply Hne'; by eapply spells_inj).
      exists j, nj. split; [by apply set_end_spells|].
      by rewrite lookup_insert_ne. }
    assert (e = true → terminal n' w0) as Hnew.
    { intros He. exists k, (set_end e nd). split; [by apply set_end_spells|].
      by rewrite lookup_insert_eq. }
    destruct e; [|by apply Hold].
    destruct (decide (u = w0)) as [->|Hu]; [by apply Hnew|].
    destruct H; [by apply Hold|done].
Qed.
End set_end.

(** ** Hanging a new leaf below a node *)

Section extend.
Context (next : Z) (n : gmap Z Node) (curr : Z) (nd : Node) (x : ascii) (last : bool).
Context (Hwf : trie_wf next n) (Hcurr : n !! curr = Some nd).
Context (Hnone : children nd !! char1 x = None).

Local Abbreviation new := (next + 1).
Local Abbreviation n' :=
  (<[curr:=set_child (char1 x) new nd]> (<[new:=new_node (char1 x) last curr]> n)).

Lemma extend_fresh : n !! new = None.
Proof.
  destruct (n !! new) as [nn|] eqn:E; [|done].
  pose proof (wf_dom _ _ Hwf _ _ E). lia.
Qed.

Lemma extend_curr_ne : curr ≠ new.
Proof. pose proof (wf_dom _ _ Hwf _ _ Hcurr). lia. Qed.

Lemma extend_lookup_new : n' !! new = Some (new_node (char1 x) last curr).
Proof.
  rewrite lookup_insert_ne by apply extend_curr_ne. apply lookup_insert_eq.
Qed.

Lemma extend_lookup_curr : n' !! curr = Some (set_child (char1 x) new nd).
Proof. apply lookup_insert_eq. Qed.

Lemma extend_lookup_other j : j ≠ curr → j ≠ new → n' !! j = n !! j.
Proof. intros ? ?. by rewrite !lookup_insert_ne. Qed.

(** Old nodes keep everything but, for [curr], the new edge. *)
Lemma extend_lookup_old j nj :
  n !! j = Some nj →
  ∃ nj', n' !! j = Some nj' ∧ char nj' = char nj ∧ parent nj' = parent nj ∧
         end_ nj' = end_ nj ∧ suffixOf nj' = suffixOf nj ∧
         suffix nj' = suffix nj ∧ word nj' = word nj ∧
         (∀ c k, children nj !! c = Some k → children nj' !! c = Some k).
Proof.
  intros Hj. destruct (decide (j = curr)) as [->|Hjc].
  - rewrite extend_lookup_curr. simplify_eq. eexists. split; [done|].
    repeat split. intros c k Hc. simpl.
    rewrite lookup_insert_ne; [done|]. intros <-. congruence.
  - assert (j ≠ new). { intros ->. rewrite extend_fresh in Hj. done. }
    rewrite extend_lookup_other by done. exists nj. by repeat split.
Qed.

Lemma extend_lookup_inv j nj' :
  n' !! j = Some nj' → j ≠ new →
  ∃ nj, n !! j = Some nj ∧ char nj' = char nj ∧ parent nj' = parent nj ∧
        end_ nj' = end_ nj ∧ suffixOf nj' = suffixOf nj ∧
        suffix nj' = suffix nj ∧ word nj' = word nj ∧
        (∀ c k, children nj' !! c = Some k →
                children nj !! c = Some k ∨ (j = curr ∧ c = char1 x ∧ k = new)).
Proof.
  intros Hj Hjn. destruct (decide (j = curr)) as [->|Hjc].
  - rewrite extend_lookup_curr in Hj. simplify_eq. exists nd. split; [done|].
    repeat split. intros c k. simpl.
    destruct (decide (char1 x = c)) as [<-|Hc].
    + rewrite lookup_insert_eq. intros [= <-]. by right.
    + rewrite lookup_insert_ne by done. by left.
  - rewrite extend_lookup_other in Hj by done. exists nj'. split; [done|].
    repeat split. by left.
Qed.

Lemma extend_walk w j k : walk n w j = Some k → walk n' w j = Some k.
Proof.
  revert j. induction w as [|c w IH]; intros j; [done|]. simpl.
  destruct (n !! j) as [nj|] eqn:Hj; [|done].
  destruct (children nj !! char1 c) as [i|] eqn:Hc; [|done].
  destruct (extend_lookup_old _ _ Hj) as (nj' & -> & _ & _ & _ & _ & _ & _ & Hch).
  rewrite (Hch _ _ Hc). apply IH.
Qed.

Lemma extend_walk_inv w j k :
  walk n' w j = Some k → j ≠ new → k ≠ new → walk n w j = Some k.
Proof.
  revert j. induction w as [|c w IH]; intros j; [done|]. simpl.
  destruct (n' !! j) as [nj'|] eqn:Hj; [|done].
  destruct (children nj' !! char1 c) as [i|] eqn:Hc; [|done].
  intros Hw Hjn Hkn.
  destruct (extend_lookup_inv _ _ Hj Hjn) as (nj & Hj0 & _ & _ & _ & _ & _ & _ & Hch).
  rewrite Hj0.
  destruct (Hch _ _ Hc) as [Hc0|(_ & _ & ->)].
  { rewrite Hc0. apply IH; [done| |done].
    destruct (wf_edge _ _ Hwf _ _ _ _ Hj0 Hc0) as (_ & ni & Hi & _).
    intros ->. by rewrite extend_fresh in Hi. }
  destruct w as [|c' w]; [simpl in Hw; by simplify_eq|].
  simpl in Hw. by rewrite extend_lookup_new in Hw.
Qed.

Lemma extend_spells k w : spells n k w → spells n' k w.
Proof. apply extend_walk. Qed.

Lemma extend_spells_new pre : spells n curr pre → spells n' new (pre +:+ char1 x).
Proof.
  intros Hd. apply spells_snoc. exists curr, (set_child (char1 x) new nd).
  split; [by apply extend_spells|]. split; [apply extend_lookup_curr|].
  simpl. apply lookup_insert_eq.
Qed.

Lemma extend_spells_inv k w : spells n' k w → k ≠ new → spells n k w.
Proof.
  intros Hw Hk. apply extend_walk_inv; [done| |done].
  unfold ROOT. destruct (wf_root _ _ Hwf) as (r & Hr & _).
  pose proof (wf_dom _ _ Hwf _ _ Hr). unfold ROOT in *. lia.
Qed.

Lemma extend_wf pre : spells n curr pre → trie_wf new n'.
Proof.
  intros Hd. pose proof extend_curr_ne as Hcn. split.
  - destruct (wf_root _ _ Hwf) as (r & Hr & ? & ? & ?).
    destruct (extend_lookup_old _ _ Hr) as (r' & ? & _ & _ & ? & _ & ? & ? & _).
    exists r'. split; [done|]. split; [congruence|]. split; congruence.
  - intros j nj' Hj. destruct (decide (j = new)) as [->|Hjn].
    + destruct (wf_root _ _ Hwf) as (r & Hr & _).
      pose proof (wf_dom _ _ Hwf _ _ Hr). unfold ROOT in *. lia.
    + destruct (extend_lookup_inv _ _ Hj Hjn) as (nj & Hj0 & _).
      pose proof (wf_dom _ _ Hwf _ _ Hj0). lia.
  - intros p np' c k Hp Hc. destruct (decide (p = new)) as [->|Hpn].
    { rewrite extend_lookup_new in Hp. by simplify_eq. }
    destruct (extend_lookup_inv _ _ Hp Hpn) as (np & Hp0 & _ & _ & _ & _ & _ & _ & Hch).
    destruct (Hch _ _ Hc) as [Hc0|(-> & -> & ->)].
    + destruct (wf_edge _ _ Hwf _ _ _ _ Hp0 Hc0) as (? & nk & Hk & ? & ?).
      split; [done|].
      destruct (extend_lookup_old _ _ Hk) as (nk' & ? & ? & ? & _).
      exists nk'. split; [done|]. split; congruence.
    + split; [pose proof (wf_dom _ _ Hwf _ _ Hcurr); lia|].
      eexists. split; [apply extend_lookup_new|]. done.
  - intros j nj' Hj. destruct (decide (j = new)) as [->|Hjn].
    { rewrite extend_lookup_new in Hj. by simplify_eq. }
    destruct (extend_lookup_inv _ _ Hj Hjn) as (nj & Hj0 & _ & _ & _ & E & _).
    rewrite E. by eapply wf_suffixOf.
  - intros j nj' Hj. destruct (decide (j = new)) as [->|Hjn].
    { eexists. by apply extend_spells_new. }
    destruct (extend_lookup_inv _ _ Hj Hjn) as (nj & Hj0 & _).
    destruct (wf_spelled _ _ Hwf _ _ Hj0) as [w Hw]. exists w.
    by apply extend_spells.
Qed.

Lemma extend_cache : cache_ok n → cache_ok n'.
Proof.
  intros Hc. split.
  - intros j nj' f Hj Hs Hj0. destruct (decide (j = new)) as [->|Hjn].
    { rewrite extend_lookup_new in Hj. by simplify_eq. }
    destruct (extend_lookup_inv _ _ Hj Hjn) as (nj & Hjo & _ & _ & _ & _ & E & _).
    rewrite E in Hs.
    destruct (cache_suffix _ Hc _ _ _ Hjo Hs Hj0) as (w & u & ? & ? & ?).
    exists w, u. split; [by apply extend_spells|]. split; [by apply extend_spells|done].
  - intros j nj' w Hj Hw. destruct (decide (j = new)) as [->|Hjn].
    { rewrite extend_lookup_new in Hj. by simplify_eq. }
    destruct (extend_lookup_inv _ _ Hj Hjn) as (nj & Hjo & _ & _ & _ & _ & _ & E & _).
    rewrite E in Hw. apply extend_spells. by eapply cache_word.
Qed.

Lemma extend_terminal pre u :
  spells n curr pre →
  terminal n' u ↔ terminal n u ∨ (last = true ∧ u = pre +:+ char1 x).
Proof.
  intros Hd. pose proof (extend_wf _ Hd) as Hwf'. split.
  - intros (j & nj' & Hu & Hj & He). destruct (decide (j = new)) as [->|Hjn].
    + right. rewrite extend_lookup_new in Hj. simplify_eq. split; [done|].
      eapply spells_inj; [done..|]. by apply extend_spells_new.
    + left. destruct (extend_lookup_inv _ _ Hj Hjn) as (nj & Hj0 & _ & _ & Ee & _).
      exists j, nj. split; [by apply extend_spells_inv|]. split; [done|congruence].
  - intros [(j & nj & Hu & Hj & He)|[Hl ->]].
    + destruct (extend_lookup_old _ _ Hj) as (nj' & Hj' & _ & _ & Ee & _).
      exists j, nj'. split; [by apply extend_spells|]. split; [done|congruence].
    + eexists new, _. split; [by apply extend_spells_new|].
      split; [apply extend_lookup_new|done].
Qed.
End extend.

(** ** [add] and [delete] keep the invariant *)

(** [suffixOf] is empty everywhere, so there is nothing to clear. *)
Lemma clearSuffixes_noop fuel k is_key nd a :
  trie_wf (_next a) (_nodes a) → _nodes a !! k = Some nd →
  _clearSuffixes (S fuel) k is_key a = Return tt a.
Proof.
  intros Hwf Hk. simpl. unfold bind, node_at. rewrite Hk.
  by rewrite (wf_suffixOf _ _ Hwf _ _ Hk), elements_empty.
Qed.

Lemma truthy_child next n p np c k :
  trie_wf next n → n !! p = Some np → children np !! c = Some k →
  truthy (children np !! c) = Some k.
Proof.
  intros Hwf Hp Hc. rewrite Hc. simpl.
  destruct (wf_edge _ _ Hwf _ _ _ _ Hp Hc) as (Hlt & _).
  pose proof (wf_dom _ _ Hwf _ _ Hp). rewrite decide_False; [done|lia].
Qed.

Lemma add_loop_spec fuel rest : ∀ pre curr a,
  rest ≠ "" → trie_wf (_next a) (_nodes a) → cache_ok (_nodes a) →
  spells (_nodes a) curr pre →
  wp (add_loop (S fuel) rest curr)
     (λ _ a', _dict a' = _dict a ∧ _ghosts a' = _ghosts a ∧
              trie_wf (_next a') (_nodes a') ∧ cache_ok (_nodes a') ∧
              ∀ u, terminal (_nodes a') u ↔
                   terminal (_nodes a) u ∨ u = pre +:+ rest) a.
Proof.
  induction rest as [|c rest IH]; intros pre curr a Hrest Hwf Hc Hd; [done|].
  destruct (spells_is_node _ _ Hwf _ _ Hd) as [nd Hnd].
  assert (pre +:+ String c rest = (pre +:+ char1 c) +:+ rest) as Happ.
  { by rewrite sapp_assoc. }
  cbn [add_loop]. apply wp_bind. eapply wp_node_at; [done|].
  destruct (children nd !! char1 c) as [child|] eqn:Hch.
  - rewrite <- Hch, (truthy_child _ _ _ _ _ _ Hwf Hnd Hch).
    pose proof (spells_child _ _ _ _ _ _ Hd Hnd Hch) as Hchild.
    destruct (wf_edge _ _ Hwf _ _ _ _ Hnd Hch) as (Hlt & nk & Hk & _).
    assert (child ≠ ROOT).
    { pose proof (wf_dom _ _ Hwf _ _ Hnd). unfold ROOT. lia. }
    apply wp_bind. destruct rest as [|c' rest]; simpl is_empty; cbv iota.
    + eapply wp_update_node; [done|]. simpl. apply wp_ret.
      split; [done|]. split; [done|].
      split; [by apply set_end_wf|]. split; [by apply set_end_cache|].
      intros u. by rewrite (set_end_terminal _ _ _ _ true Hwf Hk _ u Hchild).
    + apply wp_ret. eapply wp_mono; [by apply IH|].
      intros _ a' (? & ? & ? & ? & Ht). do 4 (split; [done|]).
      intros u. rewrite Happ. apply Ht.
  - simpl truthy. cbv iota. apply wp_bind.
    apply wp_Return. eexists tt, a. split; [by eapply clearSuffixes_noop|].
    pose proof (extend_curr_ne _ _ _ _ Hwf Hnd) as Hcn.
    unfold wp at 1. apply wp_bind. eapply wp_update_node.
    { simpl. rewrite lookup_insert_ne; done. }
    unfold with_nodes. simpl _dict. simpl _ghosts. simpl _next. simpl _nodes.
    pose proof (extend_wf _ _ _ _ c (is_empty rest) Hwf Hnd Hch _ Hd) as Hwf'.
    pose proof (extend_cache _ _ _ _ c (is_empty rest) Hwf Hnd Hch Hc) as Hc'.
    pose proof (extend_spells_new _ _ _ _ c (is_empty rest) Hwf Hnd Hch _ Hd) as Hnew.
    pose proof (λ u, extend_terminal _ _ _ _ c (is_empty rest) Hwf Hnd Hch _ u Hd) as Ht'.
    destruct rest as [|c' rest].
    + apply wp_ret. simpl. do 4 (split; [done|]).
      intros u. rewrite (Ht' u). simpl. unfold char1. intuition.
    + eapply wp_mono; [by apply IH|]. simpl.
      intros _ a' (? & ? & ? & ? & Ht). do 4 (split; [done|]).
      intros u. rewrite (Ht u), (Ht' u), Happ. simpl. intuition. done.
Qed.

Lemma add_spec fuel w a :
  Inv a → w ≠ "" → w ∉ _dict a →
  wp (add (S fuel) w)
     (λ _ a', Inv a' ∧ _dict a' = {[w]} ∪ _dict a ∧ _ghosts a' = _ghosts a ∖ {[w]}) a.
Proof.
  intros [Hwf Hc Hd] Hw Hnin. unfold add. apply wp_bind.
  destruct w as [|c w]; [done|]. simpl. apply wp_ret.
  unfold wp at 1. rewrite decide_False by done.
  eapply wp_mono; [by apply (add_loop_spec fuel (String c w) "" ROOT)|].
  simpl. intros _ a' (Ed & Eg & Hwf' & Hc' & Ht). split; [|done].
  split; [done|done|]. split.
  - intros u. rewrite Ed, Ht, elem_of_union, elem_of_singleton, (dict_end _ Hd).
    tauto.
  - rewrite Ed, Eg. intros x [->%elem_of_singleton|Hx]%elem_of_union.
    + rewrite elem_of_difference, elem_of_singleton. tauto.
    + intros [Hx' _]%elem_of_difference. by apply (dict_ghosts _ Hd x).
Qed.

(** The walk of [delete] along an existing path passes every assertion. *)
Lemma delete_loop_walk w : ∀ curr k a,
  trie_wf (_next a) (_nodes a) → walk (_nodes a) w curr = Some k →
  delete_loop w curr a = Return k a.
Proof.
  induction w as [|c w IH]; intros curr k a Hwf; simpl.
  - by intros [= ->].
  - destruct (_nodes a !! curr) as [nd|] eqn:Hnd; [|done].
    destruct (children nd !! char1 c) as [child|] eqn:Hch; [|done].
    intros Hw. unfold bind, node_at. rewrite Hnd.
    rewrite (truthy_child _ _ _ _ _ _ Hwf Hnd Hch). simpl.
    rewrite Hnd, Hch. by apply IH.
Qed.

Lemma delete_spec w a :
  Inv a → w ∈ _dict a →
  ∃ k nd, spells (_nodes a) k w ∧ _nodes a !! k = Some nd ∧ end_ nd = true ∧
          delete w a = Return tt (mkAC (_dict a ∖ {[w]}) ({[w]} ∪ _ghosts a) (_next a)
                                       (<[k:=set_end false nd]> (_nodes a))) ∧
          Inv (mkAC (_dict a ∖ {[w]}) ({[w]} ∪ _ghosts a) (_next a)
                    (<[k:=set_end false nd]> (_nodes a))).
Proof.
  intros [Hwf Hc Hd] Hin.
  pose proof Hin as (k & nd & Hw & Hk & He)%(dict_end _ Hd).
  exists k, nd. split; [done|]. split; [done|]. split; [done|].
  assert (k ≠ ROOT) as Hne.
  { intros ->. destruct (wf_root _ _ Hwf) as (r & Hr & _ & _ & Her).
    simplify_eq. congruence. }
  split.
  - unfold delete. rewrite decide_True by done. unfold bind.
    rewrite (delete_loop_walk w ROOT k); [|done|done].
    unfold update_node. simpl. by rewrite Hk.
  - split; simpl.
    + by apply set_end_wf.
    + by apply set_end_cache.
    + split; simpl.
      * intros u.
        rewrite (set_end_terminal _ _ _ _ false Hwf Hk _ u Hw).
        rewrite elem_of_difference, elem_of_singleton, (dict_end _ Hd). done.
      * intros x [Hx Hxw]%elem_of_difference [Hx'|Hx']%elem_of_union.
        -- done.
        -- by apply (dict_ghosts _ Hd x).
Qed.

Lemma delete_absent w a : w ∉ _dict a → delete w a = Return tt a.
Proof. intros H. unfold delete. by rewrite decide_False. Qed.

Lemma Inv_new : Inv new_AhoCorasick.
Proof.
  assert (∀ k w, spells (_nodes new_AhoCorasick) k w → k = ROOT ∧ w = "") as Hsp.
  { intros k [|c w]; [by intros [= <-]|]. unfold spells. simpl.
    rewrite lookup_singleton_eq. simpl. by rewrite lookup_empty. }
  split; [split|split|split]; simpl.
  - exists root_node. by rewrite lookup_singleton_eq.
  - intros k nd [<- _]%lookup_singleton_Some. unfold ROOT. lia.
  - intros p np c k [_ <-]%lookup_singleton_Some. simpl. by rewrite lookup_empty.
  - by intros k nd [_ <-]%lookup_singleton_Some.
  - intros k nd [<- _]%lookup_singleton_Some. by exists "".
  - intros k nd f [<- _]%lookup_singleton_Some. done.
  - by intros k nd w [<- <-]%lookup_singleton_Some [= <-].
  - intros w. split; [set_solver|].
    intros (k & nd & [-> ->]%Hsp & [_ <-]%lookup_singleton_Some & He). done.
  - set_solver.
Qed.

(** ** More fuel never changes an outcome *)

Lemma fuel_le_refl {A} (o : outcome A) : fuel_le o o.
Proof. by right. Qed.

Lemma fuel_le_bind {A B} (m m' : M A) (f f' : A → M B) a :
  fuel_le (m a) (m' a) → (∀ v a', fuel_le (f v a') (f' v a')) →
  fuel_le (bind m f a) (bind m' f' a).
Proof.
  unfold bind. intros [->| ->] Hf; [by left|].
  destruct (m' a); [apply Hf|by right..].
Qed.

Lemma fuel_le_final {A} (o o' : outcome A) a :
  fuel_le o o' → final o = Some a → final o' = Some a.
Proof. by intros [->| ->]. Qed.


(** Goals [fuel_le (m a) (m' a)] where [m] and [m'] differ in fuel only. *)
Ltac fuel_mono :=
  repeat first
    [ apply fuel_le_refl
    | match goal with
      | H : _ |- _ => apply H
      | |- fuel_le (bind _ _ _) (bind _ _ _) => apply fuel_le_bind; [|intros ? ?]
      | |- fuel_le (match ?x with _ => _ end _) _ => destruct x
      end ].

Lemma suffix_transition_mono fuel : ∀ fuel', (fuel ≤ fuel')%nat →
  (∀ k a, fuel_le (_getSuffix fuel k a) (_getSuffix fuel' k a)) ∧
  (∀ k c a, fuel_le (_transition fuel k c a) (_transition fuel' k c a)).
Proof.
  induction fuel as [|fuel IH]; intros fuel' Hle; [split; intros; by left|].
  destruct fuel' as [|fuel']; [lia|].
  destruct (IH fuel' ltac:(lia)) as [IHs IHt]. clear IH Hle.
  split; intros; cbn [_getSuffix _transition]; fuel_mono.
Qed.

Lemma getSuffix_mono fuel fuel' k a :
  (fuel ≤ fuel')%nat → fuel_le (_getSuffix fuel k a) (_getSuffix fuel' k a).
Proof. intros H. by apply suffix_transition_mono. Qed.

Lemma transition_mono fuel fuel' k c a :
  (fuel ≤ fuel')%nat → fuel_le (_transition fuel k c a) (_transition fuel' k c a).
Proof. intros H. by apply suffix_transition_mono. Qed.

Lemma getWord_mono fuel : ∀ fuel' k a,
  (fuel ≤ fuel')%nat → fuel_le (_getWord fuel k a) (_getWord fuel' k a).
Proof.
  induction fuel as [|fuel IH]; intros fuel' k a Hle; [by left|].
  destruct fuel' as [|fuel']; [lia|].
  specialize (IH fuel'). cbn [_getWord]. fuel_mono. lia.
Qed.

Lemma getWords_loop_mono fuel fuel' steps : ∀ steps' curr result a,
  (fuel ≤ fuel')%nat → (steps ≤ steps')%nat →
  fuel_le (_getWords_loop fuel steps curr result a)
          (_getWords_loop fuel' steps' curr result a).
Proof.
  induction steps as [|steps IH]; intros steps' curr result a Hf Hs.
  - destruct steps'; simpl; destruct (decide (curr = ROOT)); by (right + left).
  - destruct steps' as [|steps']; [lia|]. simpl.
    pose proof (getSuffix_mono _ _ curr a Hf) as Hsfx.
    destruct (decide (curr = ROOT)); [by right|].
    apply fuel_le_bind; [by apply getSuffix_mono|]. intros v a1.
    apply fuel_le_bind; [by right|]. intros nd a2.
    destruct (end_ nd).
    + apply fuel_le_bind; [by apply getWord_mono|]. intros w a3. apply IH; lia.
    + apply IH; lia.
Qed.

Lemma getWords_mono fuel fuel' k a :
  (fuel ≤ fuel')%nat → fuel_le (_getWords fuel k a) (_getWords fuel' k a).
Proof.
  intros Hf. unfold _getWords. apply fuel_le_bind; [by right|]. intros nd a1.
  apply fuel_le_bind.
  - destruct (end_ nd); [|by right].
    apply fuel_le_bind; [by apply getWord_mono|]. intros; by right.
  - intros. by apply getWords_loop_mono.
Qed.

Lemma query_loop_mono fuel fuel' h : ∀ curr results a,
  (fuel ≤ fuel')%nat →
  fuel_le (query_loop fuel h curr results a) (query_loop fuel' h curr results a).
Proof.
  induction h as [|c h IH]; intros curr results a Hf; simpl; [by right|].
  apply fuel_le_bind; [by apply transition_mono|]. intros v a1.
  apply fuel_le_bind; [by right|]. intros nd a2.
  destruct (end_ nd); [|by apply IH].
  apply fuel_le_bind; [by apply getWords_mono|]. intros. by apply IH.
Qed.

Lemma query_mono fuel fuel' h a :
  (fuel ≤ fuel')%nat → fuel_le (query fuel h a) (query fuel' h a).
Proof. apply query_loop_mono. Qed.

Lemma clearSuffixes_mono fuel : ∀ fuel' k is_key a,
  (fuel ≤ fuel')%nat →
  fuel_le (_clearSuffixes fuel k is_key a) (_clearSuffixes fuel' k is_key a).
Proof.
  induction fuel as [|fuel IH]; intros fuel' k is_key a Hle; [by left|].
  destruct fuel' as [|fuel']; [lia|]. specialize (IH fuel').
  cbn [_clearSuffixes]. apply fuel_le_bind; [by right|]. intros nd a1.
  generalize (elements (suffixOf nd)). intros l. revert a1.
  induction l as [|x l IHl]; intros a1; simpl; [by right|].
  apply fuel_le_bind; [|intros; apply IHl].
  destruct (is_key && bool_decide (x = k)); [by right|].
  apply fuel_le_bind; [by right|]. intros.
  apply fuel_le_bind; [by right|]. intros. apply IH. lia.
Qed.

Lemma add_loop_mono fuel fuel' w : ∀ curr a,
  (fuel ≤ fuel')%nat → fuel_le (add_loop fuel w curr a) (add_loop fuel' w curr a).
Proof.
  induction w as [|c w IH]; intros curr a Hf; simpl; [by right|].
  apply fuel_le_bind; [by right|]. intros nd a1.
  destruct (truthy (children nd !! char1 c)).
  - apply fuel_le_bind; [by right|]. intros. by apply IH.
  - apply fuel_le_bind; [by apply clearSuffixes_mono|]. intros _ a2.
    apply fuel_le_bind; [by right|]. intros. by apply IH.
Qed.

Lemma add_mono fuel fuel' w a :
  (fuel ≤ fuel')%nat → fuel_le (add fuel w a) (add fuel' w a).
Proof.
  intros Hf. unfold add. apply fuel_le_bind; [by right|]. intros _ a1.
  destruct (decide (w ∈ _dict a1)); [by right|]. by apply add_loop_mono.
Qed.

(** ** Every reachable state satisfies the invariant *)

Lemma add_empty fuel a :
  add fuel "" a = Throw (AssertionError "Cannot add empty strings to the structure.") a.
Proof. done. Qed.

Lemma add_present fuel w a : w ≠ "" → w ∈ _dict a → add fuel w a = Return tt a.
Proof.
  intros Hw Hin. unfold add, bind. destruct w; [done|]. simpl.
  by rewrite decide_True.
Qed.

Lemma add_absent fuel w a :
  w ≠ "" → w ∉ _dict a →
  add fuel w a =
    add_loop fuel w ROOT (mkAC ({[w]} ∪ _dict a) (_ghosts a ∖ {[w]}) (_next a) (_nodes a)).
Proof.
  intros Hw Hnin. unfold add, bind. destruct w; [done|].
  unfold is_empty, negb, invariant, ret. by rewrite decide_False.
Qed.

Lemma add_final_Inv fuel w a a' : Inv a → final (add fuel w a) = Some a' → Inv a'.
Proof.
  intros Hinv Hfin. destruct (decide (w = "")) as [->|Hw].
  { rewrite add_empty in Hfin. by simplify_eq/=. }
  destruct (decide (w ∈ _dict a)) as [Hin|Hnin].
  { rewrite add_present in Hfin by done. by simplify_eq/=. }
  pose proof (add_spec fuel w a Hinv Hw Hnin) as Hrun.
  apply wp_Return in Hrun as ([] & a'' & Hrun & Hinv' & _).
  pose proof (add_mono fuel (S fuel) w a ltac:(lia)) as Hle.
  apply (fuel_le_final _ _ _ Hle) in Hfin. rewrite Hrun in Hfin. by simplify_eq/=.
Qed.

Lemma delete_final_Inv w a a' : Inv a → final (delete w a) = Some a' → Inv a'.
Proof.
  intros Hinv Hfin. destruct (decide (w ∈ _dict a)) as [Hin|Hnin].
  - destruct (delete_spec w a Hinv Hin) as (k & nd & _ & _ & _ & Hrun & Hinv').
    rewrite Hrun in Hfin. by simplify_eq/=.
  - rewrite delete_absent in Hfin by done. by simplify_eq/=.
Qed.

Lemma query_final_Inv fuel h a a' : Inv a → final (query fuel h a) = Some a' → Inv a'.
Proof.
  intros Hinv Hfin.
  destruct (query_spec a Hinv h) as (R & _ & Hrun).
  specialize (Hrun (fuel `max` fuel_bound a)%nat a (memo_ext_refl _ Hinv) ltac:(lia)).
  apply wp_Return in Hrun as (? & a'' & Hrun & Hext & _).
  pose proof (query_mono fuel (fuel `max` fuel_bound a)%nat h a ltac:(lia)) as Hle.
  apply (fuel_le_final _ _ _ Hle) in Hfin. rewrite Hrun in Hfin. simplify_eq/=.
  by eapply memo_ext_Inv.
Qed.

Lemma reachable_Inv a : reachable a → Inv a.
Proof.
  induction 1 as [|fuel w a a' _ IH Hfin|w a a' _ IH Hfin|fuel h a a' _ IH Hfin].
  - apply Inv_new.
  - by eapply add_final_Inv.
  - by eapply delete_final_Inv.
  - by eapply query_final_Inv.
Qed.

(** ** [add] along a path that exists already *)

Lemma add_loop_walk fuel w : ∀ curr k nk a,
  w ≠ "" → trie_wf (_next a) (_nodes a) →
  walk (_nodes a) w curr = Some k → _nodes a !! k = Some nk →
  add_loop fuel w curr a = Return tt (with_nodes (<[k:=set_end true nk]>) a).
Proof.
  induction w as [|c w IH]; intros curr k nk a Hw Hwf; [done|]. simpl.
  destruct (_nodes a !! curr) as [nd|] eqn:Hnd; [|done].
  destruct (children nd !! char1 c) as [child|] eqn:Hch; [|done].
  intros Hwalk Hk. unfold bind, node_at. rewrite Hnd.
  rewrite (truthy_child _ _ _ _ _ _ Hwf Hnd Hch).
  destruct w as [|c' w].
  - simpl in Hwalk. injection Hwalk as ->. unfold update_node. simpl. by rewrite Hk.
  - simpl. by apply IH.
Qed.

(** ** What a returning call leaves of the dictionary *)

Lemma keeps_dict_bind {A B} (m : M A) (f : A → M B) :
  keeps_dict m → (∀ v, keeps_dict (f v)) → keeps_dict (bind m f).
Proof.
  intros Hm Hf a v a'. unfold bind.
  destruct (m a) as [v1 a1| |] eqn:E; [|done..].
  intros H. rewrite (Hf _ _ _ _ H). by eapply Hm.
Qed.

Lemma keeps_dict_ret {A} (v : A) : keeps_dict (ret v).
Proof. by intros a v' a' [= _ <-]. Qed.

Lemma keeps_dict_node_at k : keeps_dict (node_at k).
Proof. intros a v a'. unfold node_at. destruct (_ !! _); [|done]. by intros [= _ <-]. Qed.

Lemma keeps_dict_update_node k f : keeps_dict (update_node k f).
Proof.
  intros a v a'. unfold update_node. destruct (_ !! _); [|done]. by intros [= _ <-].
Qed.

Lemma keeps_dict_clearSuffixes fuel : ∀ k is_key, keeps_dict (_clearSuffixes fuel k is_key).
Proof.
  induction fuel as [|fuel IH]; intros k is_key; [done|]. cbn [_clearSuffixes].
  apply keeps_dict_bind; [apply keeps_dict_node_at|]. intros nd.
  induction (elements (suffixOf nd)) as [|x l IHl]; simpl; [apply keeps_dict_ret|].
  apply keeps_dict_bind; [|done].
  destruct (is_key && bool_decide (x = k)); [apply keeps_dict_ret|].
  apply keeps_dict_bind; [apply keeps_dict_update_node|]. intros _.
  apply keeps_dict_bind; [apply keeps_dict_update_node|]. intros _. apply IH.
Qed.

Lemma keeps_dict_add_loop fuel w : ∀ curr, keeps_dict (add_loop fuel w curr).
Proof.
  induction w as [|c w IH]; intros curr; simpl; [apply keeps_dict_ret|].
  apply keeps_dict_bind; [apply keeps_dict_node_at|]. intros nd.
  destruct (truthy (children nd !! char1 c)).
  - apply keeps_dict_bind; [|done].
    destruct (is_empty w); [apply keeps_dict_update_node|apply keeps_dict_ret].
  - apply keeps_dict_bind; [apply keeps_dict_clearSuffixes|]. intros _ a v a' H.
    eapply (keeps_dict_bind (update_node curr _) (λ _, add_loop fuel w _)) in H;
      [done|apply keeps_dict_update_node|done].
Qed.

Lemma keeps_dict_delete_loop w : ∀ curr, keeps_dict (delete_loop w curr).
Proof.
  induction w as [|c w IH]; intros curr; simpl; [apply keeps_dict_ret|].
  apply keeps_dict_bind; [apply keeps_dict_node_at|]. intros nd.
  apply keeps_dict_bind.
  { unfold invariant. destruct (bool_decide _); [apply keeps_dict_ret|done]. }
  intros _. apply keeps_dict_bind; [apply keeps_dict_node_at|]. intros nd'.
  destruct (children nd' !! char1 c); [apply IH|done].
Qed.

(** ** Reachability of the state a call leaves *)

Lemma reachable_exec_add fuel w a : reachable a → reachable (exec (add fuel w) a).
Proof.
  intros H. unfold exec. destruct (add fuel w a) eqn:E; [| |done];
    (eapply (reach_add fuel w); [done|by rewrite E]).
Qed.

Lemma reachable_exec_delete w a : reachable a → reachable (exec (delete w) a).
Proof.
  intros H. unfold exec. destruct (delete w a) eqn:E; [| |done];
    (eapply (reach_delete w); [done|by rewrite E]).
Qed.

Lemma reachable_exec_query fuel h a : reachable a → reachable (exec (query fuel h) a).
Proof.
  intros H. unfold exec. destruct (query fuel h a) eqn:E; [| |done];
    (eapply (reach_query fuel h); [done|by rewrite E]).
Qed.

Lemma reachable_ex_abc_b : reachable ex_abc_b.
Proof. do 2 apply reachable_exec_add. apply reach_new. Qed.

Lemma reachable_ex_ab_b : reachable ex_ab_b.
Proof. do 2 apply reachable_exec_add. apply reach_new. Qed.

Lemma reachable_ex_ab_query_b : reachable ex_ab_query_b.
Proof.
  apply reachable_exec_add, reachable_exec_query, reachable_exec_add, reach_new.
Qed.

Lemma reachable_ex_abc_deleted_b : reachable ex_abc_deleted_b.
Proof.
  apply reachable_exec_add, reachable_exec_delete, reachable_exec_add, reach_new.
Qed.

Lemma reachable_ex_b : reachable ex_b.
Proof. apply reachable_exec_add, reach_new. Qed.

Lemma reachable_ex_textbook : reachable ex_textbook.
Proof. do 4 apply reachable_exec_add. apply reach_new. Qed.

(** Once a call returns with some fuel, it returns the same with more. *)
Lemma query_more_fuel fuel fuel' h a R a' :
  query fuel h a = Return R a' → (fuel ≤ fuel')%nat → query fuel' h a = Return R a'.
Proof.
  intros Hq Hle. destruct (query_mono fuel fuel' h a Hle) as [H|H]; congruence.
Qed.

(** * The properties of the specification *)

(** ** C1 *)

(** C1 (the code departs from the claim): with the dictionary ["abc"], ["b"],
    the word ["b"] is active and occurs in the haystack ["ab"], yet [query]
    reports nothing. After reading ["ab"] the scan stands on the node of
    ["ab"], which is no word end, so [_getWords] is not called and the
    failure link leading to ["b"] is never followed. *)
Theorem C1_query_misses_word_on_failure_chain :
  reachable ex_abc_b ∧
  "b" ∈ _dict ex_abc_b ∧
  is_substring "b" "ab" ∧
  ∀ fuel, (fuel_bound ex_abc_b ≤ fuel)%nat →
          ∃ a', query fuel "ab" ex_abc_b = Return ∅ a'.
Proof.
  split; [apply reachable_ex_abc_b|].
  split; [by vm_compute|].
  split; [by exists "a", ""|].
  intros fuel Hfuel. eexists.
  eapply query_more_fuel; [|done]. vm_compute. reflexivity.
Qed.

(** ** C2 *)

(** C2 (the code departs from the claim): [add("ab"); add("b")] and
    [add("ab"); query("ab"); add("b")] end with the same active dictionary,
    but [query("ab")] then answers [{"ab", "b"}] after the first and [{"ab"}]
    after the second: the interleaved query cached the failure link of the
    node of ["ab"], and [add("b")] did not clear it. Histories without any
    query differ as well: after [add("abc"); delete("abc"); add("b")] the
    haystack ["ab"] yields nothing, after [add("b")] alone it yields ["b"]. *)
Theorem C2_query_depends_on_history :
  (reachable ex_ab_b ∧ reachable ex_ab_query_b ∧
   _dict ex_ab_b = _dict ex_ab_query_b ∧
   (∃ a', query (fuel_bound ex_ab_b) "ab" ex_ab_b = Return {[ "ab"; "b" ]} a') ∧
   (∃ a', query (fuel_bound ex_ab_query_b) "ab" ex_ab_query_b = Return {[ "ab" ]} a')) ∧
  (reachable ex_b ∧ reachable ex_abc_deleted_b ∧
   _dict ex_b = _dict ex_abc_deleted_b ∧
   (∃ a', query (fuel_bound ex_b) "ab" ex_b = Return {[ "b" ]} a') ∧
   (∃ a', query (fuel_bound ex_abc_deleted_b) "ab" ex_abc_deleted_b = Return ∅ a')).
Proof.
  split.
  - split; [apply reachable_ex_ab_b|]. split; [apply reachable_ex_ab_query_b|].
    split; [by vm_compute|].
    split; eexists; vm_compute; reflexivity.
  - split; [apply reachable_ex_b|]. split; [apply reachable_ex_abc_deleted_b|].
    split; [by vm_compute|].
    split; eexists; vm_compute; reflexivity.
Qed.

(** ** C3 *)

(** C3 (the code departs from the claim): after
    [add("ab"); query("ab"); add("b")] node 3 spells ["ab"] and its cached
    failure link is the root, although node 4 now spells ["b"], a longer
    proper suffix of ["ab"] on the trie. [add] calls [_clearSuffixes], but
    [suffixOf] is never filled, so no cached link is ever cleared. *)
Theorem C3_stale_failure_link :
  reachable ex_ab_query_b ∧
  (∃ nd, _nodes ex_ab_query_b !! 3 = Some nd ∧ suffix nd = Some ROOT) ∧
  spells (_nodes ex_ab_query_b) 3 "ab" ∧
  spells (_nodes ex_ab_query_b) ROOT "" ∧
  spells (_nodes ex_ab_query_b) 4 "b" ∧
  proper_suffix "b" "ab" ∧
  (String.length "" < String.length "b")%nat.
Proof.
  split; [apply reachable_ex_ab_query_b|].
  split; [eexists; split; by vm_compute|].
  split; [by vm_compute|]. split; [done|]. split; [by vm_compute|].
  split; [by exists "a"|]. simpl. lia.
Qed.

(** ** C4 *)

(** C4: calling [add(w)] twice is the same as calling it once, and so for
    [delete(w)]: the second call finds the word present (absent) and returns
    at once, so the two runs end in the same state, and a query that follows
    answers the same for every haystack. An exception of the first call is
    the outcome of both runs. *)
Theorem C4_add_delete_idempotent (fuel : nat) (w : string) (a : AhoCorasick) :
  (bind (add fuel w) (λ _, add fuel w) a = add fuel w a ∧
   ∀ fuel' h, bind (bind (add fuel w) (λ _, add fuel w)) (λ _, query fuel' h) a
              = bind (add fuel w) (λ _, query fuel' h) a) ∧
  (bind (delete w) (λ _, delete w) a = delete w a ∧
   ∀ fuel' h, bind (bind (delete w) (λ _, delete w)) (λ _, query fuel' h) a
              = bind (delete w) (λ _, query fuel' h) a).
Proof.
  assert (bind (add fuel w) (λ _, add fuel w) a = add fuel w a) as Hadd.
  { unfold bind. destruct (add fuel w a) as [[] a'| |] eqn:E; [|done..].
    destruct (decide (w = "")) as [->|Hw]; [by rewrite add_empty in E|].
    apply add_present; [done|].
    destruct (decide (w ∈ _dict a)) as [Hin|Hnin].
    { rewrite add_present in E by done. by simplify_eq. }
    rewrite add_absent in E by done.
    apply keeps_dict_add_loop in E. rewrite E. simpl.
    apply elem_of_union_l. by apply elem_of_singleton. }
  assert (bind (delete w) (λ _, delete w) a = delete w a) as Hdel.
  { unfold bind. destruct (delete w a) as [[] a'| |] eqn:E; [|done..].
    apply delete_absent.
    destruct (decide (w ∈ _dict a)) as [Hin|Hnin].
    - unfold delete in E. rewrite decide_True in E by done.
      eapply (keeps_dict_bind (delete_loop w ROOT)
                (λ curr, update_node curr (set_end false))) in E;
        [|apply keeps_dict_delete_loop|intros; apply keeps_dict_update_node].
      rewrite E. simpl. rewrite elem_of_difference, elem_of_singleton. tauto.
    - rewrite delete_absent in E by done. by simplify_eq. }
  split; (split; [done|]); intros fuel' h.
  - unfold bind at 1 3. by rewrite Hadd.
  - unfold bind at 1 3. by rewrite Hdel.
Qed.

(** ** C5 *)

Lemma set_end_same nd : end_ nd = true → set_end true (set_end false nd) = nd.
Proof. destruct nd. simpl. by intros ->. Qed.

(** C5: in a reachable state, deleting an active word and adding it again
    gives back the very state one started from (dictionary, ghosts, node
    table and caches), so every query answers as if the word had never been
    deleted. *)
Theorem C5_delete_then_add_restores (fuel : nat) (w : string) (a : AhoCorasick) :
  reachable a → w ∈ _dict a →
  bind (delete w) (λ _, add fuel w) a = Return tt a ∧
  ∀ fuel' h, bind (bind (delete w) (λ _, add fuel w)) (λ _, query fuel' h) a
             = query fuel' h a.
Proof.
  intros Hr Hin. pose proof (reachable_Inv _ Hr) as Hinv.
  assert (bind (delete w) (λ _, add fuel w) a = Return tt a) as Hsame.
  { destruct (delete_spec w a Hinv Hin) as (k & nd & Hw & Hk & He & Hrun & Hinv').
    unfold bind. rewrite Hrun.
    assert (w ≠ "") as Hne.
    { intros ->. injection Hw as <-.
      destruct (wf_root _ _ (inv_wf _ Hinv)) as (r & Hr' & _ & _ & Her).
      simplify_eq. congruence. }
    rewrite add_absent;
      [|done|simpl; rewrite elem_of_difference, elem_of_singleton; tauto].
    erewrite (add_loop_walk fuel w ROOT k (set_end false nd)); [|done| | |].
    - unfold with_nodes. simpl.
      rewrite insert_insert_eq, set_end_same, insert_id by done.
      assert ({[w]} ∪ _dict a ∖ {[w]} = _dict a) as ->.
      { apply set_eq. intros x.
        rewrite elem_of_union, elem_of_difference, elem_of_singleton.
        destruct (decide (x = w)) as [->|]; tauto. }
      assert (({[w]} ∪ _ghosts a) ∖ {[w]} = _ghosts a) as ->.
      { apply set_eq. intros x.
        rewrite elem_of_difference, elem_of_union, elem_of_singleton.
        pose proof (dict_ghosts _ (inv_dict _ Hinv) x) as Hd.
        destruct (decide (x = w)) as [->|]; [|tauto].
        split; [tauto|]. intros Hx. by destruct (Hd Hin). }
      by destruct a.
    - apply (inv_wf _ Hinv').
    - simpl. rewrite (set_end_walk _ _ _ _ Hk). apply Hw.
    - simpl. apply lookup_insert_eq. }
  split; [done|]. intros fuel' h. unfold bind at 1. by rewrite Hsame.
Qed.

Lemma C5_delete_then_add_restores_witness :
  bind (delete "abc") (λ _, add 1 "abc") ex_abc_b = Return tt ex_abc_b ∧
  ∀ fuel' h, bind (bind (delete "abc") (λ _, add 1 "abc")) (λ _, query fuel' h) ex_abc_b
             = query fuel' h ex_abc_b.
Proof.
  apply (C5_delete_then_add_restores 1 "abc" ex_abc_b).
  - apply reachable_ex_abc_b.
  - vm_compute. reflexivity.
Defined.

(** ** C6 *)

(** C6: [add("")] throws the assertion error of its first line, and the
    automaton it leaves is the one it was given. *)
Theorem C6_add_empty_throws (fuel : nat) (a : AhoCorasick) :
  add fuel "" a = Throw (AssertionError "Cannot add empty strings to the structure.") a.
Proof. apply add_empty. Qed.

(** ** C7 *)

(** C7: [delete(w)] returns the state unchanged when [w] is not active. When
    [w] is active, in a reachable state, the result differs from the state
    before in that [w] has moved from [_dict] to [_ghosts] and the node at
    the end of the path of [w] has its [end] flag cleared: no node or edge
    is removed, no [suffix] or [word] field changes. *)
Theorem C7_delete_frame (w : string) (a : AhoCorasick) :
  (w ∉ _dict a → delete w a = Return tt a) ∧
  (reachable a → w ∈ _dict a →
   ∃ k nd, spells (_nodes a) k w ∧ _nodes a !! k = Some nd ∧
           delete w a =
             Return tt (mkAC (_dict a ∖ {[w]}) ({[w]} ∪ _ghosts a) (_next a)
                             (<[k:=set_end false nd]> (_nodes a)))).
Proof.
  split; [apply delete_absent|]. intros Hr Hin.
  destruct (delete_spec w a (reachable_Inv _ Hr) Hin) as (k & nd & ? & ? & _ & ? & _).
  by exists k, nd.
Qed.

Lemma C7_delete_frame_witness :
  ∃ k nd, spells (_nodes ex_abc_b) k "abc" ∧ _nodes ex_abc_b !! k = Some nd ∧
          delete "abc" ex_abc_b =
            Return tt (mkAC (_dict ex_abc_b ∖ {["abc"]}) ({["abc"]} ∪ _ghosts ex_abc_b)
                            (_next ex_abc_b)
                            (<[k:=set_end false nd]> (_nodes ex_abc_b))).
Proof.
  apply (proj2 (C7_delete_frame "abc" ex_abc_b)).
  - apply reachable_ex_abc_b.
  - vm_compute. reflexivity.
Defined.

(** ** C8 *)

(** C8: in a reachable state, with fuel for the deepest node, [query]
    returns a set for every haystack; every word in it is active and occurs
    in the haystack. So the empty haystack, and any haystack in which no
    active word occurs, yield the empty set. *)
Theorem C8_query_returns_only_occurring_words (fuel : nat) (h : string) (a : AhoCorasick) :
  reachable a → (fuel_bound a ≤ fuel)%nat →
  ∃ R a', query fuel h a = Return R a' ∧
          (∀ u, u ∈ R → u ∈ _dict a ∧ is_substring u h) ∧
          (h = "" → R = ∅) ∧
          ((∀ u, u ∈ _dict a → ¬ is_substring u h) → R = ∅).
Proof.
  intros Hr Hfuel. pose proof (reachable_Inv _ Hr) as Hinv.
  destruct (query_spec a Hinv h) as (R & HR & Hrun).
  specialize (Hrun fuel a (memo_ext_refl _ Hinv) Hfuel).
  apply wp_Return in Hrun as (? & a' & Hrun & _ & ->).
  exists R, a'. split; [done|]. split; [done|]. split.
  - intros ->. by injection Hrun as <- _.
  - intros Hno. apply set_eq. intros u. split; [|by intros ?%not_elem_of_empty].
    intros [Hin Hsub]%HR. by destruct (Hno u).
Qed.

Lemma C8_query_returns_only_occurring_words_witness :
  ∃ R a', query 12 "concatenate" ex_abc_b = Return R a' ∧
          (∀ u, u ∈ R → u ∈ _dict ex_abc_b ∧ is_substring u "concatenate") ∧
          ("concatenate" = "" → R = ∅) ∧
          ((∀ u, u ∈ _dict ex_abc_b → ¬ is_substring u "concatenate") → R = ∅).
Proof.
  apply (C8_query_returns_only_occurring_words 12 "concatenate" ex_abc_b).
  - apply reachable_ex_abc_b.
  - vm_compute. lia.
Defined.

(** ** C9 *)

(** C9: in a reachable state [query] returns leaving [_dict], [_ghosts],
    [_next] and, for every node, [char], [children], [end], [parent] and
    [suffixOf] as they were; only [suffix] and [word] may have been filled
    in. Asking the same haystack again right away gives the same set. *)
Theorem C9_query_frame_and_repeat (fuel : nat) (h : string) (a : AhoCorasick) :
  reachable a → (fuel_bound a ≤ fuel)%nat →
  ∃ R a' a'', query fuel h a = Return R a' ∧
              same_observable a a' ∧
              query fuel h a' = Return R a''.
Proof.
  intros Hr Hfuel. pose proof (reachable_Inv _ Hr) as Hinv.
  destruct (query_spec a Hinv h) as (R & _ & Hrun).
  pose proof (Hrun fuel a (memo_ext_refl _ Hinv) Hfuel) as Hrun1.
  apply wp_Return in Hrun1 as (? & a' & Hrun1 & Hext & ->).
  pose proof (Hrun fuel a' Hext Hfuel) as Hrun2.
  apply wp_Return in Hrun2 as (? & a'' & Hrun2 & _ & ->).
  exists R, a', a''. split; [done|]. split; [|done].
  by apply memo_ext_same_observable.
Qed.

Lemma C9_query_frame_and_repeat_witness :
  ∃ R a' a'', query 30 "ahishers" ex_textbook = Return R a' ∧
              same_observable ex_textbook a' ∧
              query 30 "ahishers" a' = Return R a''.
Proof.
  apply (C9_query_frame_and_repeat 30 "ahishers" ex_textbook).
  - apply reachable_ex_textbook.
  - vm_compute. lia.
Defined.

(** ** C10 *)

(** C10: in every state reached from a fresh automaton through [add],
    [delete] and [query], each active word has its path of child edges from
    the root, and [delete] returns normally for every word: the assertion
    inside its loop does not fire. *)
Theorem C10_delete_assertion_never_fires (w : string) (a : AhoCorasick) :
  reachable a →
  (w ∈ _dict a → ∃ k, walk (_nodes a) w ROOT = Some k) ∧
  ∃ a', delete w a = Return tt a'.
Proof.
  intros Hr. pose proof (reachable_Inv _ Hr) as Hinv. split.
  - intros Hin. destruct (delete_spec w a Hinv Hin) as (k & _ & Hw & _). by exists k.
  - destruct (decide (w ∈ _dict a)) as [Hin|Hnin].
    + destruct (delete_spec w a Hinv Hin) as (k & nd & _ & _ & _ & Hrun & _). eauto.
    + exists a. by apply delete_absent.
Qed.

Lemma C10_delete_assertion_never_fires_witness :
  ("hers" ∈ _dict ex_textbook → ∃ k, walk (_nodes ex_textbook) "hers" ROOT = Some k) ∧
  ∃ a', delete "hers" ex_textbook = Return tt a'.
Proof.
  apply (C10_delete_assertion_never_fires "hers" ex_textbook).
  apply reachable_ex_textbook.
Defined.

(** * Further properties *)

(** ** The scenarios of the specification *)

(** After [add] of ["he"], ["she"], ["his"], ["hers"], the haystack
    ["ahishers"] yields all four words. *)
Example scenario_textbook :
  ∃ a', query (fuel_bound ex_textbook) "ahishers" ex_textbook
        = Return {[ "his"; "she"; "he"; "hers" ]} a'.
Proof. eexists. vm_compute. reflexivity. Qed.

(** After [add("ab"); add("abc")], the haystack ["xabcx"] yields both. *)
Example scenario_shared_prefix :
  ∃ a', query 8 "xabcx" (exec (add 1 "abc") (exec (add 1 "ab") new_AhoCorasick))
        = Return {[ "ab"; "abc" ]} a'.
Proof. eexists. vm_compute. reflexivity. Qed.

(** After [add("cat"); delete("cat")], the haystack ["concatenate"]
    yields nothing. *)
Example scenario_deleted_word :
  ∃ a', query 8 "concatenate" (exec (delete "cat") (exec (add 1 "cat") new_AhoCorasick))
        = Return ∅ a'.
Proof. eexists. vm_compute. reflexivity. Qed.

(** ** Invariants of the reachable states *)

(** X4: in every reachable state a word is active exactly when the node at
    the end of its path carries the [end] flag; no word is both active and
    a ghost, and the empty word is never active. *)
Theorem X4_end_flag_marks_active_words (w : string) (a : AhoCorasick) :
  reachable a →
  (w ∈ _dict a ↔ terminal (_nodes a) w) ∧ _dict a ## _ghosts a ∧ "" ∉ _dict a.
Proof.
  intros [Hwf _ Hd]%reachable_Inv. split; [apply (dict_end _ Hd)|].
  split; [apply (dict_ghosts _ Hd)|].
  intros (k & nd & Hk & Hnd & He)%(dict_end _ Hd). injection Hk as <-.
  destruct (wf_root _ _ Hwf) as (r & Hr & _ & _ & Her). simplify_eq. congruence.
Qed.

Lemma X4_end_flag_marks_active_words_witness :
  ("b" ∈ _dict ex_abc_b ↔ terminal (_nodes ex_abc_b) "b") ∧
  _dict ex_abc_b ## _ghosts ex_abc_b ∧ "" ∉ _dict ex_abc_b.
Proof.
  apply (X4_end_flag_marks_active_words "b" ex_abc_b). apply reachable_ex_abc_b.
Defined.

(** X5: in every reachable state a cached failure link of a node other than
    the root leads to a node of the trie whose word is a proper suffix of
    the node's word (the longest one or not). *)
Theorem X5_cached_link_is_proper_suffix (k f : Z) (nd : Node) (a : AhoCorasick) :
  reachable a → _nodes a !! k = Some nd → suffix nd = Some f → k ≠ ROOT →
  ∃ w u, spells (_nodes a) k w ∧ spells (_nodes a) f u ∧ proper_suffix u w.
Proof.
  intros [_ Hc _]%reachable_Inv Hk Hs Hne. by eapply cache_suffix.
Qed.

Lemma X5_cached_link_is_proper_suffix_witness :
  ∃ w u, spells (_nodes ex_ab_query_b) 3 w ∧ spells (_nodes ex_ab_query_b) 0 u ∧
         proper_suffix u w.
Proof.
  apply (X5_cached_link_is_proper_suffix 3 0
           (mkNode "b" ∅ true 2 ∅ (Some 0) (Some "ab")) ex_ab_query_b).
  - apply reachable_ex_ab_query_b.
  - vm_compute. reflexivity.
  - reflexivity.
  - discriminate.
Defined.

(** X6: in every reachable state [suffixOf] is empty at every node, and
    [_clearSuffixes] returns at once, leaving the automaton as it was. *)
Theorem X6_clearSuffixes_changes_nothing
    (fuel : nat) (k : Z) (is_key : bool) (nd : Node) (a : AhoCorasick) :
  reachable a → _nodes a !! k = Some nd →
  suffixOf nd = ∅ ∧ _clearSuffixes (S fuel) k is_key a = Return tt a.
Proof.
  intros [Hwf _ _]%reachable_Inv Hk. split; [by eapply wf_suffixOf|].
  by eapply clearSuffixes_noop.
Qed.

Lemma X6_clearSuffixes_changes_nothing_witness :
  suffixOf root_node = ∅ ∧ _clearSuffixes 1 ROOT false new_AhoCorasick
                           = Return tt new_AhoCorasick.
Proof.
  apply (X6_clearSuffixes_changes_nothing 0 ROOT false root_node new_AhoCorasick).
  - apply reach_new.
  - reflexivity.
Defined.

(** * What [add] does to the trie *)

Lemma node_kept_refl nd : node_kept nd nd.
Proof. by repeat split. Qed.

Lemma node_kept_trans nd1 nd2 nd3 :
  node_kept nd1 nd2 → node_kept nd2 nd3 → node_kept nd1 nd3.
Proof.
  intros (? & ? & ? & ? & ? & He1 & Hc1) (? & ? & ? & ? & ? & He2 & Hc2).
  repeat split; try congruence; auto.
Qed.

Lemma grows_refl a : grows a a.
Proof.
  split; [lia|]. split; [|split].
  - intros k nd Hk. exists nd. split; [done|apply node_kept_refl].
  - intros k Hk. by left.
  - intros k Hk. lia.
Qed.

Lemma grows_trans a1 a2 a3 : grows a1 a2 → grows a2 a3 → grows a1 a3.
Proof.
  intros (Hn1 & Hk1 & Hd1 & Hf1) (Hn2 & Hk2 & Hd2 & Hf2).
  split; [lia|]. split; [|split].
  - intros k nd Hk. destruct (Hk1 _ _ Hk) as (nd2 & Hk' & Hkept).
    destruct (Hk2 _ _ Hk') as (nd3 & Hk'' & Hkept').
    exists nd3. split; [done|]. by eapply node_kept_trans.
  - intros k Hk. destruct (Hd2 _ Hk) as [Hk'|Hk']; [|right; lia].
    destruct (Hd1 _ Hk') as [?|?]; [by left|right; lia].
  - intros k Hk. destruct (decide (k ≤ _next a2)) as [Hle|Hgt].
    + destruct (Hf1 k ltac:(lia)) as [nd Hnd].
      destruct (Hk2 _ _ Hnd) as (nd' & -> & _). eauto.
    + apply Hf2. lia.
Qed.

(** Paths survive growth. *)
Lemma grows_walk a a' w : ∀ x k,
  grows a a' → walk (_nodes a) w x = Some k → walk (_nodes a') w x = Some k.
Proof.
  induction w as [|c w IH]; intros x k Hg; [done|]. simpl.
  destruct (_nodes a !! x) as [nd|] eqn:Hx; [|done].
  destruct (children nd !! char1 c) as [j|] eqn:Hc; [|done].
  destruct Hg as (Hn & Hk & Hrest).
  destruct (Hk _ _ Hx) as (nd' & -> & Hkept).
  destruct Hkept as (_ & _ & _ & _ & _ & _ & Hch). rewrite (Hch _ _ Hc).
  apply IH. by split.
Qed.

Lemma grows_set_end a k nd :
  _nodes a !! k = Some nd → grows a (with_nodes (<[k:=set_end true nd]>) a).
Proof.
  intros Hk. split; [simpl; lia|]. split; [|split]; simpl.
  - intros j nj Hj. destruct (decide (k = j)) as [<-|Hne].
    + rewrite lookup_insert_eq. simplify_eq. eexists. split; [done|].
      by repeat split.
    + rewrite lookup_insert_ne by done. exists nj. split; [done|apply node_kept_refl].
  - intros j Hj. left. destruct (decide (k = j)) as [<-|Hne]; [by eauto|].
    by rewrite lookup_insert_ne in Hj.
  - intros j Hj. lia.
Qed.

Lemma grows_extend a curr nd x last :
  trie_wf (_next a) (_nodes a) → _nodes a !! curr = Some nd →
  children nd !! char1 x = None →
  grows a (mkAC (_dict a) (_ghosts a) (_next a + 1)
             (<[curr:=set_child (char1 x) (_next a + 1) nd]>
                (<[_next a + 1:=new_node (char1 x) last curr]> (_nodes a)))).
Proof.
  intros Hwf Hcurr Hnone. split; [simpl; lia|]. split; [|split]; simpl.
  - intros j nj Hj.
    destruct (extend_lookup_old _ _ _ _ x last Hwf Hcurr Hnone _ _ Hj)
      as (nj' & Hj' & ? & ? & He & ? & ? & ? & ?).
    exists nj'. split; [done|]. repeat split; try done. congruence.
  - intros j [nj' Hj]. destruct (decide (j = _next a + 1)) as [->|Hne].
    + right. lia.
    + left. destruct (extend_lookup_inv _ _ _ _ x last Hcurr _ _ Hj Hne)
        as (nj & -> & _). eauto.
  - intros j Hj. assert (j = _next a + 1) as -> by lia.
    rewrite (extend_lookup_new _ _ _ _ x last Hwf Hcurr). eauto.
Qed.

(** The loop of [add] keeps what is there and allocates at most one node
    for each character. *)
Lemma add_loop_grows fuel rest : ∀ pre curr a,
  trie_wf (_next a) (_nodes a) → spells (_nodes a) curr pre →
  wp (add_loop (S fuel) rest curr)
     (λ _ a', grows a a' ∧ _next a' ≤ _next a + Z.of_nat (String.length rest)) a.
Proof.
  induction rest as [|c rest IH]; intros pre curr a Hwf Hd.
  { apply wp_ret. split; [apply grows_refl|simpl; lia]. }
  destruct (spells_is_node _ _ Hwf _ _ Hd) as [nd Hnd].
  cbn [add_loop]. apply wp_bind. eapply wp_node_at; [done|].
  destruct (children nd !! char1 c) as [child|] eqn:Hch.
  - rewrite <- Hch, (truthy_child _ _ _ _ _ _ Hwf Hnd Hch).
    pose proof (spells_child _ _ _ _ _ _ Hd Hnd Hch) as Hchild.
    destruct (wf_edge _ _ Hwf _ _ _ _ Hnd Hch) as (Hlt & nk & Hk & _).
    assert (child ≠ ROOT).
    { pose proof (wf_dom _ _ Hwf _ _ Hnd). unfold ROOT. lia. }
    apply wp_bind. destruct (is_empty rest).
    + eapply wp_update_node; [done|].
      eapply wp_mono.
      { apply (IH (pre +:+ char1 c) child); simpl; [by apply set_end_wf|].
        by apply set_end_spells. }
      simpl. intros _ a' [Hg Hn]. split.
      * eapply grows_trans; [by apply grows_set_end|done].
      * cbn [String.length]. lia.
    + apply wp_ret. eapply wp_mono; [by apply (IH (pre +:+ char1 c) child)|].
      simpl. intros _ a' [Hg Hn]. split; [done|]. cbn [String.length]. lia.
  - simpl truthy. cbv iota. apply wp_bind.
    apply wp_Return. eexists tt, a. split; [by eapply clearSuffixes_noop|].
    pose proof (extend_curr_ne _ _ _ _ Hwf Hnd) as Hcn.
    unfold wp at 1. apply wp_bind. eapply wp_update_node.
    { simpl. rewrite lookup_insert_ne; done. }
    unfold with_nodes. simpl _dict. simpl _ghosts. simpl _next. simpl _nodes.
    pose proof (extend_wf _ _ _ _ c (is_empty rest) Hwf Hnd Hch _ Hd) as Hwf'.
    pose proof (extend_spells_new _ _ _ _ c (is_empty rest) Hwf Hnd Hch _ Hd) as Hnew.
    pose proof (grows_extend a curr nd c (is_empty rest) Hwf Hnd Hch) as Hg0.
    eapply wp_mono; [by apply (IH (pre +:+ char1 c) (_next a + 1))|].
    simpl. intros _ a' [Hg Hn]. split.
    + by eapply grows_trans.
    + cbn [String.length]. lia.
Qed.

Lemma add_full_spec fuel w a :
  Inv a → w ≠ "" →
  ∃ a', add (S fuel) w a = Return tt a' ∧ Inv a' ∧
        _dict a' = {[w]} ∪ _dict a ∧ _ghosts a' = _ghosts a ∖ {[w]} ∧
        grows a a' ∧ _next a' ≤ _next a + Z.of_nat (String.length w).
Proof.
  intros Hinv Hw. destruct (decide (w ∈ _dict a)) as [Hin|Hnin].
  - exists a. split; [by apply add_present|]. split; [done|].
    split; [|split; [|split; [apply grows_refl|lia]]].
    + apply set_eq. intros x. rewrite elem_of_union, elem_of_singleton.
      split; [tauto|]. by intros [->|?].
    + apply set_eq. intros x. rewrite elem_of_difference, elem_of_singleton.
      split; [|tauto]. intros Hx. split; [done|]. intros ->.
      by apply (dict_ghosts _ (inv_dict _ Hinv) w).
  - pose proof (add_spec fuel w a Hinv Hw Hnin) as Hrun.
    apply wp_Return in Hrun as ([] & a' & Hrun & Hinv' & Ed & Eg).
    exists a'. do 4 (split; [done|]).
    rewrite add_absent in Hrun by done.
    pose proof (add_loop_grows fuel w "" ROOT
                  (mkAC ({[w]} ∪ _dict a) (_ghosts a ∖ {[w]}) (_next a) (_nodes a))
                  (inv_wf _ Hinv) eq_refl) as Hrun'.
    apply wp_Return in Hrun' as ([] & a'' & Hrun' & Hg & Hn).
    rewrite Hrun in Hrun'. by simplify_eq.
Qed.

(** Whatever [add] leaves behind, with any fuel, has grown from the state
    before. *)
Lemma add_final_grows fuel w a a' :
  Inv a → final (add fuel w a) = Some a' →
  grows a a' ∧ _ghosts a' ⊆ _ghosts a ∧ _dict a ⊆ _dict a'.
Proof.
  intros Hinv Hfin. destruct (decide (w = "")) as [->|Hw].
  { rewrite add_empty in Hfin. simplify_eq/=. split; [apply grows_refl|done]. }
  destruct (add_full_spec fuel w a Hinv Hw) as (a'' & Hrun & _ & Ed & Eg & Hg & _).
  pose proof (add_mono fuel (S fuel) w a ltac:(lia)) as Hle.
  apply (fuel_le_final _ _ _ Hle) in Hfin. rewrite Hrun in Hfin. simplify_eq/=.
  split; [done|]. rewrite Ed, Eg. split.
  - intros x [? _]%elem_of_difference. done.
  - intros x Hx. by apply elem_of_union_r.
Qed.

(** * Further properties of [add] and of the errors *)

(** X1: in a reachable state [add] of a non-empty word returns, whatever the
    fuel beyond the first unit; afterwards the word is active and no longer
    a ghost, and the two sets are otherwise as before. *)
Theorem X1_add_returns_and_records_word (fuel : nat) (w : string) (a : AhoCorasick) :
  reachable a → w ≠ "" →
  ∃ a', add (S fuel) w a = Return tt a' ∧ reachable a' ∧
        _dict a' = {[w]} ∪ _dict a ∧ _ghosts a' = _ghosts a ∖ {[w]}.
Proof.
  intros Hr Hw.
  destruct (add_full_spec fuel w a (reachable_Inv _ Hr) Hw) as (a' & Hrun & _ & ? & ? & _).
  exists a'. split; [done|]. split; [|done].
  eapply (reach_add (S fuel) w); [done|]. by rewrite Hrun.
Qed.

Lemma X1_add_returns_and_records_word_witness :
  ∃ a', add 1 "bc" ex_abc_b = Return tt a' ∧ reachable a' ∧
        _dict a' = {["bc"]} ∪ _dict ex_abc_b ∧ _ghosts a' = _ghosts ex_abc_b ∖ {["bc"]}.
Proof.
  apply (X1_add_returns_and_records_word 0 "bc" ex_abc_b).
  - apply reachable_ex_abc_b.
  - discriminate.
Defined.

(** X2: in a reachable state [add] of a non-empty word keeps every node
    under its number with its character, parent, cached [suffix] and [word]
    and all its child edges, clears no [end] flag, and allocates the numbers
    after [_next], at most one for each character of the word. *)
Theorem X2_add_only_grows_the_trie (fuel : nat) (w : string) (a : AhoCorasick) :
  reachable a → w ≠ "" →
  ∃ a', add (S fuel) w a = Return tt a' ∧ grows a a' ∧
        _next a' ≤ _next a + Z.of_nat (String.length w).
Proof.
  intros Hr Hw.
  destruct (add_full_spec fuel w a (reachable_Inv _ Hr) Hw)
    as (a' & Hrun & _ & _ & _ & ? & ?).
  by exists a'.
Qed.

Lemma X2_add_only_grows_the_trie_witness :
  ∃ a', add 1 "bc" ex_abc_b = Return tt a' ∧ grows ex_abc_b a' ∧
        _next a' ≤ _next ex_abc_b + Z.of_nat (String.length "bc").
Proof.
  apply (X2_add_only_grows_the_trie 0 "bc" ex_abc_b).
  - apply reachable_ex_abc_b.
  - discriminate.
Defined.

(** X3: in a reachable state the only exception a public method throws is
    the assertion error of [add("")], which leaves the state as it was:
    [add] of another word, [delete] and [query] never throw, with any
    fuel. *)
Theorem X3_only_add_empty_throws (a : AhoCorasick) :
  reachable a →
  (∀ fuel w e a', add fuel w a = Throw e a' →
     w = "" ∧ e = AssertionError "Cannot add empty strings to the structure." ∧ a' = a) ∧
  (∀ w e a', delete w a ≠ Throw e a') ∧
  (∀ fuel h e a', query fuel h a ≠ Throw e a').
Proof.
  intros Hr. pose proof (reachable_Inv _ Hr) as Hinv. split; [|split].
  - intros fuel w e a' Hthrow. destruct (decide (w = "")) as [->|Hw].
    { rewrite add_empty in Hthrow. by simplify_eq. }
    destruct (add_full_spec fuel w a Hinv Hw) as (a'' & Hrun & _).
    destruct (add_mono fuel (S fuel) w a ltac:(lia)) as [H|H]; congruence.
  - intros w e a' Hthrow. destruct (decide (w ∈ _dict a)) as [Hin|Hnin].
    + destruct (delete_spec w a Hinv Hin) as (k & nd & _ & _ & _ & Hrun & _). congruence.
    + rewrite delete_absent in Hthrow by done. done.
  - intros fuel h e a' Hthrow.
    destruct (query_spec a Hinv h) as (R & _ & Hrun).
    specialize (Hrun (fuel `max` fuel_bound a)%nat a (memo_ext_refl _ Hinv) ltac:(lia)).
    apply wp_Return in Hrun as (? & a'' & Hrun & _).
    destruct (query_mono fuel (fuel `max` fuel_bound a)%nat h a ltac:(lia)) as [H|H];
      congruence.
Qed.

Lemma X3_only_add_empty_throws_witness :
  (∀ fuel w e a', add fuel w ex_textbook = Throw e a' →
     w = "" ∧ e = AssertionError "Cannot add empty strings to the structure."
     ∧ a' = ex_textbook) ∧
  (∀ w e a', delete w ex_textbook ≠ Throw e a') ∧
  (∀ fuel h e a', query fuel h ex_textbook ≠ Throw e a').
Proof.
  apply (X3_only_add_empty_throws ex_textbook). apply reachable_ex_textbook.
Defined.

(** * More on the scan *)

Lemma bind_Return {A B} (m : M A) (f : A → M B) a v a' :
  m a = Return v a' → bind m f a = f v a'.
Proof. unfold bind. by intros ->. Qed.

Lemma node_at_Return k nd a : _nodes a !! k = Some nd → node_at k a = Return nd a.
Proof. unfold node_at. by intros ->. Qed.

Section scan.
Context (b : AhoCorasick) (Hinv : Inv b).

Local Abbreviation n := (_nodes b).

(** A word end reports its own word. *)
Lemma getWords_own_word fuel k nk w a :
  spells n k w → n !! k = Some nk → end_ nk = true →
  memo_ext b a → (fuel_bound b ≤ fuel)%nat →
  wp (_getWords fuel k) (λ v a', memo_ext b a' ∧ w ∈ v) a.
Proof.
  intros Hw Hk He Hext Hfuel. pose proof Hinv as [Hwf Hc Hd].
  destruct (getWords_loop_spec b Hinv _ _ Hw) as (l & _ & Hloop).
  pose proof (spells_depth_next _ _ Hwf _ _ Hw).
  destruct (memo_ext_lookup _ _ _ _ Hext Hk) as (na & Ha & Hn).
  unfold _getWords. apply wp_bind. eapply wp_node_at; [done|].
  assert (end_ na = true) as -> by (rewrite <- He; apply Hn).
  apply wp_bind. apply wp_bind. unfold fuel_bound in Hfuel.
  eapply wp_mono; [eapply (getWord_spec b Hinv fuel k w); [done|done|lia]|].
  intros ? a1 [Hext1 ->]. apply wp_ret.
  eapply wp_mono; [apply Hloop; [done|unfold fuel_bound; lia|lia]|].
  intros r a2 [Hext2 ->]. split; [done|]. apply elem_of_app. left.
  by apply list_elem_of_singleton.
Qed.

(** While the text follows a path of the trie, the scan follows it too; if
    the path ends in a word end, its word is reported. *)
Lemma query_loop_reports_path w : ∀ curr pre rest results a fuel k nk,
  spells n curr pre → walk n w curr = Some k → w ≠ "" →
  n !! k = Some nk → end_ nk = true →
  memo_ext b a → (fuel_bound b ≤ fuel)%nat →
  wp (query_loop fuel (w +:+ rest) curr results)
     (λ v a', memo_ext b a' ∧ (pre +:+ w) ∈ v) a.
Proof.
  pose proof Hinv as [Hwf Hc Hd].
  induction w as [|c w IH];
    intros curr pre rest results a fuel k nk Hpre Hwalk Hne Hk He Hext Hfuel; [done|].
  rewrite sapp_cons. cbn [query_loop]. simpl in Hwalk.
  destruct (n !! curr) as [nd|] eqn:Hnd; [|done].
  destruct (children nd !! char1 c) as [child|] eqn:Hch; [|done].
  pose proof (spells_child _ _ _ _ _ _ Hpre Hnd Hch) as Hchild.
  destruct (spells_is_node _ _ Hwf _ _ Hchild) as [nc Hnc].
  destruct (getWords_spec b Hinv _ _ Hchild) as (l & _ & Hwords).
  destruct (query_loop_spec b Hinv rest _ _ Hchild) as (R & _ & Hloop).
  apply wp_bind. eapply wp_mono; [by eapply transition_spec|].
  intros v a1 [Hext1 Hev1].
  assert (v = child) as -> by (eapply eval_det; [done|by eapply eval_goto]).
  destruct (memo_ext_lookup _ _ _ _ Hext1 Hnc) as (na & Ha & Hn).
  apply wp_bind. eapply wp_node_at; [done|].
  assert (end_ na = end_ nc) as -> by apply Hn.
  destruct w as [|c' w].
  - simpl in Hwalk. simplify_eq. rewrite He.
    apply wp_bind. eapply wp_mono; [by eapply getWords_own_word|].
    intros words a2 [Hext2 Hin].
    eapply wp_mono; [by apply Hloop|].
    intros v a3 [Hext3 ->]. split; [done|].
    apply elem_of_union_l, elem_of_union_r. by apply elem_of_list_to_set.
  - assert (pre +:+ String c (String c' w) = (pre +:+ char1 c) +:+ String c' w) as ->.
    { by rewrite sapp_assoc. }
    destruct (end_ nc).
    + apply wp_bind. eapply wp_mono; [by apply Hwords|].
      intros ? a2 [Hext2 ->]. by eapply IH.
    + by eapply IH.
Qed.

(** Reading on never loses a match. *)
Lemma query_loop_extend h h' : ∀ curr w results1 results2 a1 a2 fuel,
  spells n curr w → memo_ext b a1 → memo_ext b a2 → (fuel_bound b ≤ fuel)%nat →
  results1 ⊆ results2 →
  ∃ v1 a1' v2 a2',
    query_loop fuel h curr results1 a1 = Return v1 a1' ∧
    query_loop fuel (h +:+ h') curr results2 a2 = Return v2 a2' ∧
    v1 ⊆ v2.
Proof.
  pose proof Hinv as [Hwf Hc Hd].
  induction h as [|c h IH]; intros curr w results1 results2 a1 a2 fuel Hw H1 H2 Hfuel Hsub.
  - destruct (query_loop_spec b Hinv h' _ _ Hw) as (R & _ & Hloop).
    specialize (Hloop fuel a2 results2 H2 Hfuel).
    apply wp_Return in Hloop as (v2 & a2' & E2 & _ & ->).
    exists results1, a1, (results2 ∪ R), a2'. split; [done|]. split; [done|].
    intros x Hx. apply elem_of_union_l. by apply Hsub.
  - pose proof (transition_spec b Hinv fuel curr w c a1 H1 Hw Hfuel) as T1.
    pose proof (transition_spec b Hinv fuel curr w c a2 H2 Hw Hfuel) as T2.
    apply wp_Return in T1 as (v & a1' & E1 & Hext1 & Hev1).
    apply wp_Return in T2 as (v' & a2' & E2 & Hext2 & Hev2).
    assert (v' = v) as -> by by eapply eval_det.
    destruct (eval_good _ _ Hwf Hc _ _ Hev1 _ _ eq_refl Hw) as (u & Hu & _).
    destruct (spells_is_node _ _ Hwf _ _ Hu) as [nv Hv].
    destruct (memo_ext_lookup _ _ _ _ Hext1 Hv) as (na1 & Ha1 & Hn1).
    destruct (memo_ext_lookup _ _ _ _ Hext2 Hv) as (na2 & Ha2 & Hn2).
    assert (end_ na1 = end_ nv) as He1 by apply Hn1.
    assert (end_ na2 = end_ nv) as He2 by apply Hn2.
    destruct (getWords_spec b Hinv _ _ Hu) as (l & _ & Hwords).
    rewrite sapp_cons. cbn [query_loop].
    rewrite (bind_Return _ _ _ _ _ E1), (bind_Return _ _ _ _ _ E2).
    rewrite (bind_Return _ _ _ _ _ (node_at_Return _ _ _ Ha1)).
    rewrite (bind_Return _ _ _ _ _ (node_at_Return _ _ _ Ha2)).
    rewrite He1, He2. destruct (end_ nv).
    + pose proof (Hwords fuel a1' Hext1 Hfuel) as W1.
      pose proof (Hwords fuel a2' Hext2 Hfuel) as W2.
      apply wp_Return in W1 as (? & a1'' & W1 & Hext1' & ->).
      apply wp_Return in W2 as (? & a2'' & W2 & Hext2' & ->).
      rewrite (bind_Return _ _ _ _ _ W1), (bind_Return _ _ _ _ _ W2).
      apply (IH _ u); try done.
      intros x [Hx|Hx]%elem_of_union; [apply elem_of_union_l; by apply Hsub|].
      by apply elem_of_union_r.
    + by apply (IH _ u).
Qed.
End scan.

(** X7: in a reachable state an active word with which the haystack begins
    is always reported, whatever follows it and whatever is cached. *)
Theorem X7_query_reports_leading_word
    (fuel : nat) (w rest : string) (a : AhoCorasick) :
  reachable a → w ∈ _dict a → (fuel_bound a ≤ fuel)%nat →
  ∃ R a', query fuel (w +:+ rest) a = Return R a' ∧ w ∈ R.
Proof.
  intros Hr Hin Hfuel. pose proof (reachable_Inv _ Hr) as Hinv.
  pose proof Hin as (k & nk & Hw & Hk & He)%(dict_end _ (inv_dict _ Hinv)).
  assert (w ≠ "") as Hne.
  { intros ->. injection Hw as <-.
    destruct (wf_root _ _ (inv_wf _ Hinv)) as (r & Hr' & _ & _ & Her).
    simplify_eq. congruence. }
  pose proof (query_loop_reports_path a Hinv w ROOT "" rest ∅ a fuel k nk
                eq_refl Hw Hne Hk He (memo_ext_refl _ Hinv) Hfuel) as Hrun.
  apply wp_Return in Hrun as (R & a' & Hrun & _ & HR). by exists R, a'.
Qed.

Lemma X7_query_reports_leading_word_witness :
  ∃ R a', query 12 ("b" +:+ "abc") ex_abc_b = Return R a' ∧ "b" ∈ R.
Proof.
  apply (X7_query_reports_leading_word 12 "b" "abc" ex_abc_b).
  - apply reachable_ex_abc_b.
  - vm_compute. reflexivity.
  - vm_compute. lia.
Defined.

(** X8: in a reachable state [delete(w)] returns, and from then on no query
    reports [w], whatever the haystack. *)
Theorem X8_deleted_word_is_never_reported (w : string) (a : AhoCorasick) :
  reachable a →
  ∃ a', delete w a = Return tt a' ∧ (w ∉ _dict a') ∧
        ∀ fuel h, (fuel_bound a' ≤ fuel)%nat →
                  ∃ R a'', query fuel h a' = Return R a'' ∧ w ∉ R.
Proof.
  intros Hr. pose proof (reachable_Inv _ Hr) as Hinv.
  assert (∃ a', delete w a = Return tt a' ∧ w ∉ _dict a') as (a' & Hdel & Hnin).
  { destruct (decide (w ∈ _dict a)) as [Hin|Hnin].
    - destruct (delete_spec w a Hinv Hin) as (k & nd & _ & _ & _ & Hrun & _).
      eexists. split; [done|]. simpl. rewrite elem_of_difference, elem_of_singleton. tauto.
    - exists a. split; [by apply delete_absent|done]. }
  exists a'. split; [done|]. split; [done|]. intros fuel h Hfuel.
  assert (Inv a') as Hinv' by (eapply delete_final_Inv; [done|by rewrite Hdel]).
  destruct (query_spec a' Hinv' h) as (R & HR & Hrun).
  specialize (Hrun fuel a' (memo_ext_refl _ Hinv') Hfuel).
  apply wp_Return in Hrun as (? & a'' & Hrun & _ & ->).
  exists R, a''. split; [done|]. intros [? _]%HR. done.
Qed.

Lemma X8_deleted_word_is_never_reported_witness :
  ∃ a', delete "b" ex_abc_b = Return tt a' ∧ ("b" ∉ _dict a') ∧
        ∀ fuel h, (fuel_bound a' ≤ fuel)%nat →
                  ∃ R a'', query fuel h a' = Return R a'' ∧ "b" ∉ R.
Proof.
  apply (X8_deleted_word_is_never_reported "b" ex_abc_b). apply reachable_ex_abc_b.
Defined.

(** X9: in a reachable state, appending text to the haystack never removes
    a word from the result. *)
Theorem X9_query_grows_with_the_haystack (fuel : nat) (h h' : string) (a : AhoCorasick) :
  reachable a → (fuel_bound a ≤ fuel)%nat →
  ∃ R R' a1 a2, query fuel h a = Return R a1 ∧
                query fuel (h +:+ h') a = Return R' a2 ∧ R ⊆ R'.
Proof.
  intros Hr Hfuel. pose proof (reachable_Inv _ Hr) as Hinv.
  destruct (query_loop_extend a Hinv h h' ROOT "" ∅ ∅ a a fuel eq_refl
              (memo_ext_refl _ Hinv) (memo_ext_refl _ Hinv) Hfuel ltac:(done))
    as (v1 & a1 & v2 & a2 & ? & ? & ?).
  by exists v1, v2, a1, a2.
Qed.

Lemma X9_query_grows_with_the_haystack_witness :
  ∃ R R' a1 a2, query 12 "xb" ex_abc_b = Return R a1 ∧
                query 12 ("xb" +:+ "abc") ex_abc_b = Return R' a2 ∧ R ⊆ R'.
Proof.
  apply (X9_query_grows_with_the_haystack 12 "xb" "abc" ex_abc_b).
  - apply reachable_ex_abc_b.
  - vm_compute. lia.
Defined.

(** * Node numbers and retired words *)

Lemma query_final_memo fuel h a a' :
  Inv a → final (query fuel h a) = Some a' → memo_ext a a'.
Proof.
  intros Hinv Hfin.
  destruct (query_spec a Hinv h) as (R & _ & Hrun).
  specialize (Hrun (fuel `max` fuel_bound a)%nat a (memo_ext_refl _ Hinv) ltac:(lia)).
  apply wp_Return in Hrun as (? & a'' & Hrun & Hext & _).
  pose proof (query_mono fuel (fuel `max` fuel_bound a)%nat h a ltac:(lia)) as Hle.
  apply (fuel_le_final _ _ _ Hle) in Hfin. rewrite Hrun in Hfin. by simplify_eq/=.
Qed.

Lemma grows_ids a a' : grows a a' → ids_ok a → ids_ok a'.
Proof.
  intros (Hn & Hk & Hd & Hf) [H1 Hids]. split; [lia|]. intros k. split.
  - intros [Hold|Hnew]%Hd; [|right; lia].
    apply Hids in Hold as [->|?]; [by left|right; lia].
  - intros Hcase. destruct (decide (k ≤ _next a)) as [Hle|Hgt].
    + assert (is_Some (_nodes a !! k)) as [nd Hnd].
      { apply Hids. destruct Hcase as [->|?]; [by left|right; lia]. }
      destruct (Hk _ _ Hnd) as (nd' & -> & _). eauto.
    + apply Hf. destruct Hcase as [->|?]; [unfold ROOT in *|]; lia.
Qed.

Lemma reachable_ids_ghosts a :
  reachable a →
  ids_ok a ∧ (∀ w, w ∈ _ghosts a → ∃ k, spells (_nodes a) k w) ∧ "" ∉ _ghosts a.
Proof.
  induction 1 as [|fuel w a a' Hr (Hids & Hgh & Hne) Hfin
                 |w a a' Hr (Hids & Hgh & Hne) Hfin
                 |fuel h a a' Hr (Hids & Hgh & Hne) Hfin];
    try pose proof (reachable_Inv _ Hr) as Hinv.
  - split; [|split; [by intros w ?%not_elem_of_empty|by intros ?%not_elem_of_empty]].
    split; [done|]. intros k. simpl. rewrite lookup_singleton_is_Some.
    unfold ROOT. split; [by left|]. intros [?|?]; [done|lia].
  - destruct (add_final_grows _ _ _ _ Hinv Hfin) as (Hg & Hsub & _).
    split; [by eapply grows_ids|]. split; [|by intros ?%Hsub].
    intros u Hu. destruct (Hgh u (Hsub _ Hu)) as [k Hk]. exists k. by eapply grows_walk.
  - destruct (decide (w ∈ _dict a)) as [Hin|Hnin].
    + destruct (delete_spec w a Hinv Hin) as (k & nd & Hw & Hk & He & Hrun & _).
      rewrite Hrun in Hfin. simplify_eq/=. split; [|split].
      * destruct Hids as [H1 Hids]. split; [done|]. intros j. simpl.
        rewrite <- Hids. destruct (decide (k = j)) as [<-|Hkj].
        -- rewrite lookup_insert_eq, Hk. split; eauto.
        -- by rewrite lookup_insert_ne.
      * intros u [->%elem_of_singleton|Hu]%elem_of_union.
        -- exists k. by apply set_end_spells.
        -- destruct (Hgh u Hu) as [j Hj]. exists j. by apply set_end_spells.
      * intros [<-%elem_of_singleton|?]%elem_of_union; [|done].
        injection Hw as <-.
        destruct (wf_root _ _ (inv_wf _ Hinv)) as (r & Hr' & _ & _ & Her).
        simplify_eq. congruence.
    + rewrite delete_absent in Hfin by done. by simplify_eq/=.
  - pose proof (query_final_memo _ _ _ _ Hinv Hfin) as Hext.
    pose proof Hext as (_ & Eg & En & Hnodes). split; [|split].
    + destruct Hids as [H1 Hids]. split; [by rewrite En|]. intros k.
      rewrite En, <- Hids. destruct (Hnodes k) as [nb na _|]; split; eauto;
        by intros [].
    + intros u Hu. rewrite Eg in Hu. destruct (Hgh u Hu) as [k Hk]. exists k.
      unfold spells. by rewrite (memo_ext_walk _ _ _ _ Hext).
    + by rewrite Eg.
Qed.



(** X11: in every reachable state [_next] is at least 1 and the numbers in
    use are the root and all numbers from 2 to [_next]: the first node gets
    number 2, number 1 is never used, and no number is skipped after it. *)
Theorem X11_node_numbers (k : Z) (a : AhoCorasick) :
  reachable a →
  1 ≤ _next a ∧ (is_Some (_nodes a !! k) ↔ k = ROOT ∨ 2 ≤ k ≤ _next a).
Proof.
  intros Hr. destruct (reachable_ids_ghosts _ Hr) as [[H1 Hids] _]. split; [done|].
  apply Hids.
Qed.

Lemma X11_node_numbers_witness :
  1 ≤ _next ex_textbook ∧
  (is_Some (_nodes ex_textbook !! 1) ↔ 1 = ROOT ∨ 2 ≤ 1 ≤ _next ex_textbook).
Proof.
  apply (X11_node_numbers 1 ex_textbook). apply reachable_ex_textbook.
Defined.

(** X12: in a reachable state a retired word is never empty and still has
    its whole path, with the [end] flag cleared at its last node. *)
Theorem X12_retired_words_keep_their_path (w : string) (a : AhoCorasick) :
  reachable a → w ∈ _ghosts a →
  w ≠ "" ∧ (w ∉ _dict a) ∧
  ∃ k nd, spells (_nodes a) k w ∧ _nodes a !! k = Some nd ∧ end_ nd = false.
Proof.
  intros Hr Hg. pose proof (reachable_Inv _ Hr) as [Hwf _ Hd].
  destruct (reachable_ids_ghosts _ Hr) as (_ & Hgh & Hne).
  assert (w ∉ _dict a) as Hnin by (intros Hin; by destruct (dict_ghosts _ Hd w)).
  split; [by intros ->|]. split; [done|].
  destruct (Hgh w Hg) as [k Hk].
  destruct (spells_is_node _ _ Hwf _ _ Hk) as [nd Hnd].
  exists k, nd. split; [done|]. split; [done|].
  destruct (end_ nd) eqn:He; [|done].
  destruct Hnin. apply (dict_end _ Hd). by exists k, nd.
Qed.

Lemma X12_retired_words_keep_their_path_witness :
  "abc" ≠ "" ∧ ("abc" ∉ _dict (exec (delete "abc") ex_abc_b)) ∧
  ∃ k nd, spells (_nodes (exec (delete "abc") ex_abc_b)) k "abc" ∧
          _nodes (exec (delete "abc") ex_abc_b) !! k = Some nd ∧ end_ nd = false.
Proof.
  apply (X12_retired_words_keep_their_path "abc" (exec (delete "abc") ex_abc_b)).
  - apply reachable_exec_delete, reachable_ex_abc_b.
  - vm_compute. reflexivity.
Defined.

(** X13: in a reachable state, adding a non-empty word that is not active
    but whose path exists (a retired word, or a prefix of an added word)
    allocates nothing, with any fuel: it sets the [end] flag of the last
    node of the path and moves the word into [_dict]. *)
Theorem X13_add_on_existing_path
    (fuel : nat) (w : string) (k : Z) (nd : Node) (a : AhoCorasick) :
  reachable a → w ≠ "" → w ∉ _dict a →
  spells (_nodes a) k w → _nodes a !! k = Some nd →
  add fuel w a =
    Return tt (mkAC ({[w]} ∪ _dict a) (_ghosts a ∖ {[w]}) (_next a)
                    (<[k:=set_end true nd]> (_nodes a))).
Proof.
  intros Hr Hne Hnin Hw Hk. pose proof (reachable_Inv _ Hr) as [Hwf _ _].
  rewrite add_absent by done. by rewrite (add_loop_walk fuel w ROOT k nd).
Qed.

Lemma X13_add_on_existing_path_witness :
  add 0 "ab" ex_abc_b =
    Return tt (mkAC ({["ab"]} ∪ _dict ex_abc_b) (_ghosts ex_abc_b ∖ {["ab"]})
                    (_next ex_abc_b)
                    (<[3:=set_end true (mkNode "b" {["c" := 4]} false 2 ∅ None None)]>
                       (_nodes ex_abc_b))).
Proof.
  apply (X13_add_on_existing_path 0 "ab" 3
           (mkNode "b" {["c" := 4]} false 2 ∅ None None) ex_abc_b).
  - apply reachable_ex_abc_b.
  - discriminate.
  - vm_compute. intros H. discriminate H.
  - vm_compute. reflexivity.
  - vm_compute. reflexivity.
Defined.

(** * The private helpers *)

(** After [_getSuffix] has returned, the link is cached at the node. *)
Lemma getSuffix_memoizes fuel k a v a' :
  _getSuffix fuel k a = Return v a' →
  ∃ nd', _nodes a' !! k = Some nd' ∧ suffix nd' = Some v.
Proof.
  destruct fuel as [|fuel]; [done|]. cbn [_getSuffix]. unfold bind at 1, node_at at 1.
  destruct (_nodes a !! k) as [nd|] eqn:Hk; [|done].
  destruct (suffix nd) as [f|] eqn:Hs.
  { intros [= <- <-]. eauto. }
  unfold bind at 1.
  match goal with |- context [match ?m a with _ => _ end] => destruct (m a) as [sfx a1| |] end;
    [|done..].
  unfold bind, update_node. destruct (_nodes a1 !! k) as [nd1|]; [|done].
  intros [= <- <-]. eexists. simpl. by rewrite lookup_insert_eq.
Qed.

Lemma transition_child fuel k nd c child a :
  _nodes a !! k = Some nd → children nd !! c = Some child →
  _transition (S fuel) k c a = Return child a.
Proof.
  intros Hk Hc. cbn [_transition]. unfold bind, node_at. by rewrite Hk, Hc.
Qed.

Lemma transition_root fuel nd c a :
  _nodes a !! ROOT = Some nd → children nd !! c = None →
  _transition (S fuel) ROOT c a = Return ROOT a.
Proof.
  intros Hk Hc. cbn [_transition]. unfold bind, node_at. by rewrite Hk, Hc.
Qed.

Section helpers.
Context (b : AhoCorasick) (Hinv : Inv b).

Local Abbreviation n := (_nodes b).

(** The words along the chain of failure links, each a proper suffix of the
    one before. *)
Lemma getWords_loop_sorted curr w :
  spells n curr w →
  ∃ l, Forall (λ u, u ∈ _dict b ∧ proper_suffix u w) l ∧
       StronglySorted (λ u v, proper_suffix v u) l ∧
       ∀ fuel steps a result,
         memo_ext b a → (fuel_bound b ≤ fuel)%nat → (String.length w ≤ steps)%nat →
         wp (_getWords_loop fuel steps curr result)
            (λ v a', memo_ext b a' ∧ v = result ++ l) a.
Proof.
  pose proof Hinv as [Hwf Hc Hd].
  remember (String.length w) as m eqn:Hm.
  assert (String.length w ≤ m)%nat as Hle by lia. clear Hm.
  revert curr w Hle. induction m as [|m IH]; intros curr w Hle Hw.
  - destruct w; [|simpl in Hle; lia]. injection Hw as <-.
    exists []. split; [done|]. split; [constructor|].
    intros fuel steps a result Hext _ _.
    destruct steps; simpl; (apply wp_ret; split; [done|]; by rewrite app_nil_r).
  - destruct (decide (curr = ROOT)) as [->|Hne].
    { exists []. split; [done|]. split; [constructor|].
      intros fuel steps a result Hext _ _.
      destruct steps; simpl; (apply wp_ret; split; [done|]; by rewrite app_nil_r). }
    pose proof (getSuffix_spec b Hinv (fuel_bound b) curr w b (memo_ext_refl _ Hinv) Hw
                  ltac:(lia)) as Hrun.
    apply wp_Return in Hrun as (v & ? & _ & _ & Hev).
    destruct (eval_good _ _ Hwf Hc _ _ Hev _ Hw) as [[? _]|(_ & u & Hu & Hpu)];
      [done|].
    pose proof (proper_suffix_length _ _ Hpu) as Hlen.
    destruct (IH v u ltac:(lia) Hu) as (l & Hl & Hsorted & Hloop).
    destruct (spells_is_node _ _ Hwf _ _ Hu) as [nv Hv].
    assert (Forall (λ u0, u0 ∈ _dict b ∧ proper_suffix u0 w) l) as Hl'.
    { eapply Forall_impl; [done|]. intros y [? ?]. split; [done|].
      eapply is_suffix_proper_trans; [by apply proper_is_suffix|done]. }
    exists (if end_ nv then u :: l else l). split; [|split].
    { destruct (end_ nv) eqn:He; [|done]. constructor; [|done]. split; [|done].
      apply (dict_end _ Hd). by exists v, nv. }
    { destruct (end_ nv); [|done]. constructor; [done|].
      eapply Forall_impl; [exact Hl|]. by intros y [_ ?]. }
    intros fuel steps a result Hext Hfuel Hsteps.
    destruct steps as [|steps]; [lia|]. simpl.
    rewrite decide_False by done.
    apply wp_bind. eapply wp_mono; [by eapply getSuffix_spec|].
    intros v' a1 [Hext1 Hev1]. rewrite (eval_det _ _ _ _ Hev1 Hev).
    destruct (memo_ext_lookup _ _ _ _ Hext1 Hv) as (na & Ha & Hn).
    apply wp_bind. eapply wp_node_at; [done|].
    assert (end_ na = end_ nv) as -> by apply Hn.
    pose proof (spells_depth_next _ _ Hwf _ _ Hu).
    destruct (end_ nv).
    + apply wp_bind. eapply wp_mono.
      { eapply (getWord_spec b Hinv fuel v u); [done|done|].
        unfold fuel_bound in Hfuel. lia. }
      intros ? a2 [Hext2 ->].
      eapply wp_mono; [apply Hloop; [done|done|lia]|].
      intros r a3 [Hext3 ->]. split; [done|]. by rewrite <- app_assoc.
    + apply Hloop; [done|done|lia].
Qed.

Lemma getWords_sorted k nk w :
  spells n k w → n !! k = Some nk →
  ∃ l, Forall (λ u, u ∈ _dict b ∧ is_suffix u w) l ∧
       StronglySorted (λ u v, proper_suffix v u) l ∧
       (end_ nk = true → head l = Some w) ∧
       ∀ fuel a,
         memo_ext b a → (fuel_bound b ≤ fuel)%nat →
         wp (_getWords fuel k) (λ v a', memo_ext b a' ∧ v = l) a.
Proof.
  pose proof Hinv as [Hwf Hc Hd]. intros Hw Hk.
  destruct (getWords_loop_sorted _ _ Hw) as (l & Hl & Hsorted & Hloop).
  pose proof (spells_depth_next _ _ Hwf _ _ Hw).
  exists (if end_ nk then w :: l else l). split; [|split; [|split]].
  - assert (Forall (λ u, u ∈ _dict b ∧ is_suffix u w) l) as Hl'.
    { eapply Forall_impl; [done|]. intros y [? ?]. split; [done|].
      by apply proper_is_suffix. }
    destruct (end_ nk) eqn:He; [|done]. constructor; [|done]. split.
    + apply (dict_end _ Hd). by exists k, nk.
    + apply is_suffix_refl.
  - destruct (end_ nk); [|done]. constructor; [done|].
    eapply Forall_impl; [exact Hl|]. by intros y [_ ?].
  - by intros ->.
  - intros fuel a Hext Hfuel. unfold fuel_bound in Hfuel. unfold _getWords.
    destruct (memo_ext_lookup _ _ _ _ Hext Hk) as (na & Ha & Hn).
    apply wp_bind. eapply wp_node_at; [done|].
    assert (end_ na = end_ nk) as -> by apply Hn.
    apply wp_bind. destruct (end_ nk).
    + apply wp_bind.
      eapply wp_mono; [eapply (getWord_spec b Hinv fuel k w); [done|done|lia]|].
      intros ? a1 [Hext1 ->]. apply wp_ret.
      eapply wp_mono; [apply Hloop; [done|unfold fuel_bound; lia|lia]|].
      by intros r a2 [Hext2 ->].
    + apply wp_ret.
      eapply wp_mono; [apply Hloop; [done|unfold fuel_bound; lia|lia]|].
      by intros r a2 [Hext2 ->].
Qed.
End helpers.

(** X14: in a reachable state [_transition] from a node of the trie returns
    a node of the trie whose word is a suffix of the node's word followed by
    the character, changing caches only; it is the child when there is one
    and the root when the root has none, and then nothing changes at all. *)
Theorem X14_transition_lands_on_a_suffix
    (fuel : nat) (k : Z) (nd : Node) (w : string) (x : ascii) (a : AhoCorasick) :
  reachable a → _nodes a !! k = Some nd → spells (_nodes a) k w →
  (fuel_bound a ≤ fuel)%nat →
  ∃ v a' u, _transition fuel k (char1 x) a = Return v a' ∧
            same_observable a a' ∧
            spells (_nodes a) v u ∧ is_suffix u (w +:+ char1 x) ∧
            (∀ child, children nd !! char1 x = Some child → v = child ∧ a' = a) ∧
            (k = ROOT → children nd !! char1 x = None → v = ROOT ∧ a' = a).
Proof.
  intros Hr Hk Hw Hfuel. pose proof (reachable_Inv _ Hr) as Hinv.
  pose proof Hinv as [Hwf Hc _].
  pose proof (transition_spec a Hinv fuel k w x a (memo_ext_refl _ Hinv) Hw Hfuel) as Hrun.
  apply wp_Return in Hrun as (v & a' & Hrun & Hext & Hev).
  destruct (eval_good _ _ Hwf Hc _ _ Hev _ _ eq_refl Hw) as (u & Hu & Hsu).
  exists v, a', u. split; [done|]. split; [by apply memo_ext_same_observable|].
  split; [done|]. split; [done|].
  destruct fuel as [|fuel]; [unfold fuel_bound in Hfuel; lia|]. split.
  - intros child Hch. rewrite (transition_child _ _ _ _ _ _ Hk Hch) in Hrun.
    by simplify_eq.
  - intros -> Hch. rewrite (transition_root _ _ _ _ Hk Hch) in Hrun. by simplify_eq.
Qed.

Lemma X14_transition_lands_on_a_suffix_witness :
  ∃ v a' u, _transition 12 4 (char1 "b") ex_abc_b = Return v a' ∧
            same_observable ex_abc_b a' ∧
            spells (_nodes ex_abc_b) v u ∧ is_suffix u ("abc" +:+ char1 "b") ∧
            (∀ child, children (mkNode "c" ∅ true 3 ∅ None None) !! char1 "b" = Some child →
                      v = child ∧ a' = ex_abc_b) ∧
            (4 = ROOT → children (mkNode "c" ∅ true 3 ∅ None None) !! char1 "b" = None →
             v = ROOT ∧ a' = ex_abc_b).
Proof.
  apply (X14_transition_lands_on_a_suffix 12 4 (mkNode "c" ∅ true 3 ∅ None None)
           "abc" "b" ex_abc_b).
  - apply reachable_ex_abc_b.
  - vm_compute. reflexivity.
  - vm_compute. reflexivity.
  - vm_compute. lia.
Defined.

(** X15: in a reachable state [_getSuffix] of a node other than the root
    returns a node of the trie whose word is a proper suffix of the node's
    word, changing caches only; a cached link is returned as it is, without
    any change, and when the call returns the link is cached at the node. *)
Theorem X15_getSuffix_yields_a_proper_suffix
    (fuel : nat) (k : Z) (nd : Node) (w : string) (a : AhoCorasick) :
  reachable a → _nodes a !! k = Some nd → spells (_nodes a) k w → k ≠ ROOT →
  (fuel_bound a ≤ fuel)%nat →
  ∃ v a' u, _getSuffix fuel k a = Return v a' ∧
            same_observable a a' ∧
            spells (_nodes a) v u ∧ proper_suffix u w ∧
            (∀ f, suffix nd = Some f → v = f ∧ a' = a) ∧
            (∃ nd', _nodes a' !! k = Some nd' ∧ suffix nd' = Some v).
Proof.
  intros Hr Hk Hw Hne Hfuel. pose proof (reachable_Inv _ Hr) as Hinv.
  pose proof Hinv as [Hwf Hc _].
  pose proof (getSuffix_spec a Hinv fuel k w a (memo_ext_refl _ Hinv) Hw Hfuel) as Hrun.
  apply wp_Return in Hrun as (v & a' & Hrun & Hext & Hev).
  destruct (eval_good _ _ Hwf Hc _ _ Hev _ Hw) as [[? _]|(_ & u & Hu & Hpu)]; [done|].
  exists v, a', u. split; [done|]. split; [by apply memo_ext_same_observable|].
  split; [done|]. split; [done|]. split; [|by eapply getSuffix_memoizes].
  intros f Hf. destruct fuel as [|fuel]; [unfold fuel_bound in Hfuel; lia|].
  cbn [_getSuffix] in Hrun. unfold bind, node_at in Hrun.
  rewrite Hk, Hf in Hrun. unfold ret in Hrun. by simplify_eq/=.
Qed.

Lemma X15_getSuffix_yields_a_proper_suffix_witness :
  ∃ v a' u, _getSuffix 12 4 ex_abc_b = Return v a' ∧
            same_observable ex_abc_b a' ∧
            spells (_nodes ex_abc_b) v u ∧ proper_suffix u "abc" ∧
            (∀ f, suffix (mkNode "c" ∅ true 3 ∅ None None) = Some f →
                  v = f ∧ a' = ex_abc_b) ∧
            (∃ nd', _nodes a' !! 4 = Some nd' ∧ suffix nd' = Some v).
Proof.
  apply (X15_getSuffix_yields_a_proper_suffix 12 4 (mkNode "c" ∅ true 3 ∅ None None)
           "abc" ex_abc_b).
  - apply reachable_ex_abc_b.
  - vm_compute. reflexivity.
  - vm_compute. reflexivity.
  - discriminate.
  - vm_compute. lia.
Defined.

(** X16: in a reachable state [_getWords] of a node returns, changing caches
    only, a list of active words that are suffixes of the node's word, each
    a proper suffix of all before it (so none occurs twice), beginning with
    the node's word when the node is a word end. *)
Theorem X16_getWords_lists_active_suffixes
    (fuel : nat) (k : Z) (nd : Node) (w : string) (a : AhoCorasick) :
  reachable a → _nodes a !! k = Some nd → spells (_nodes a) k w →
  (fuel_bound a ≤ fuel)%nat →
  ∃ l a', _getWords fuel k a = Return l a' ∧
          same_observable a a' ∧
          Forall (λ u, u ∈ _dict a ∧ is_suffix u w) l ∧
          StronglySorted (λ u v, proper_suffix v u) l ∧
          (end_ nd = true → head l = Some w).
Proof.
  intros Hr Hk Hw Hfuel. pose proof (reachable_Inv _ Hr) as Hinv.
  destruct (getWords_sorted a Hinv k nd w Hw Hk) as (l & Hl & Hsorted & Hhead & Hrun).
  specialize (Hrun fuel a (memo_ext_refl _ Hinv) Hfuel).
  apply wp_Return in Hrun as (? & a' & Hrun & Hext & ->).
  exists l, a'. split; [done|]. split; [by apply memo_ext_same_observable|]. done.
Qed.

Lemma X16_getWords_lists_active_suffixes_witness :
  ∃ l a', _getWords 12 4 ex_abc_b = Return l a' ∧
          same_observable ex_abc_b a' ∧
          Forall (λ u, u ∈ _dict ex_abc_b ∧ is_suffix u "abc") l ∧
          StronglySorted (λ u v, proper_suffix v u) l ∧
          (end_ (mkNode "c" ∅ true 3 ∅ None None) = true → head l = Some "abc").
Proof.
  apply (X16_getWords_lists_active_suffixes 12 4 (mkNode "c" ∅ true 3 ∅ None None)
           "abc" ex_abc_b).
  - apply reachable_ex_abc_b.
  - vm_compute. reflexivity.
  - vm_compute. reflexivity.
  - vm_compute. lia.
Defined.

(** * [add] followed by [delete] *)

(** X17: in a reachable state, adding a non-empty word that is not active
    and deleting it again returns; the active dictionary and the word ends
    are as before, every path of the trie is still there, but the word is
    now retired and the nodes allocated for it stay ([_next] is not taken
    back). *)
Theorem X17_add_then_delete (fuel : nat) (w : string) (a : AhoCorasick) :
  reachable a → w ≠ "" → w ∉ _dict a →
  ∃ a', bind (add (S fuel) w) (λ _, delete w) a = Return tt a' ∧
        _dict a' = _dict a ∧ _ghosts a' = {[w]} ∪ _ghosts a ∧
        _next a ≤ _next a' ∧
        (∀ u, terminal (_nodes a') u ↔ terminal (_nodes a) u) ∧
        (∀ k u, spells (_nodes a) k u → spells (_nodes a') k u) ∧
        (∃ k, spells (_nodes a') k w).
Proof.
  intros Hr Hne Hnin. pose proof (reachable_Inv _ Hr) as Hinv.
  destruct (add_full_spec fuel w a Hinv Hne) as (a1 & Hadd & Hinv1 & Ed & Eg & Hg & _).
  assert (w ∈ _dict a1) as Hin1.
  { rewrite Ed. apply elem_of_union_l. by apply elem_of_singleton. }
  destruct (delete_spec w a1 Hinv1 Hin1) as (k & nd & Hw & Hk & He & Hdel & Hinv').
  eexists. split; [by rewrite (bind_Return _ _ _ _ _ Hadd)|]. simpl.
  assert (_dict a1 ∖ {[w]} = _dict a) as Edict.
  { rewrite Ed. apply set_eq. intros x.
    rewrite elem_of_difference, elem_of_union, elem_of_singleton.
    split; [tauto|]. intros Hx. split; [by right|]. by intros ->. }
  split; [done|]. split.
  { rewrite Eg. apply set_eq. intros x.
    rewrite !elem_of_union, elem_of_difference, elem_of_singleton.
    destruct (decide (x = w)); tauto. }
  split; [apply Hg|]. split; [|split].
  - intros u. rewrite <- (dict_end _ (inv_dict _ Hinv') u). simpl.
    by rewrite Edict, (dict_end _ (inv_dict _ Hinv) u).
  - intros j u Hu. apply set_end_spells; [done|]. by eapply grows_walk.
  - exists k. by apply set_end_spells.
Qed.

Lemma X17_add_then_delete_witness :
  ∃ a', bind (add 1 "bc") (λ _, delete "bc") ex_abc_b = Return tt a' ∧
        _dict a' = _dict ex_abc_b ∧ _ghosts a' = {["bc"]} ∪ _ghosts ex_abc_b ∧
        _next ex_abc_b ≤ _next a' ∧
        (∀ u, terminal (_nodes a') u ↔ terminal (_nodes ex_abc_b) u) ∧
        (∀ k u, spells (_nodes ex_abc_b) k u → spells (_nodes a') k u) ∧
        (∃ k, spells (_nodes a') k "bc").
Proof.
  apply (X17_add_then_delete 0 "bc" ex_abc_b).
  - apply reachable_ex_abc_b.
  - discriminate.
  - vm_compute. intros H. discriminate H.
Defined.
